(** * pk-verify: the verification pipeline, the storage loader and the
      low-level configuration parser, embedded from [main.go] and [loader.go]. *)

From Stdlib Require Import ZArith Lia Ascii String List.
From stdpp Require Import base option list gmap strings pretty.

Local Open Scope string_scope.
Local Open Scope list_scope.
Local Open Scope Z_scope.

Set Warnings "-register-all".

(** ** Go's [int]

    The tallies of [main] are Go [int]s.  They are modelled as [Z] with the
    two's complement wrap-around of the 64-bit platforms written out. *)
Module GoInt.

Definition MaxInt : Z := 2 ^ 63 - 1.
Definition MinInt : Z := - 2 ^ 63.

Definition wrap (z : Z) : Z := (z + 2 ^ 63) mod 2 ^ 64 - 2 ^ 63.

(** [n++] *)
Definition incr (n : Z) : Z := wrap (n + 1).

(** [a + b] *)
Definition add (a b : Z) : Z := wrap (a + b).

End GoInt.

(** ** Text helpers *)

(** The control characters that Go writes as [\n] and [\r]. *)
Definition nl : string := String "010"%char EmptyString.
Definition cr : string := String "013"%char EmptyString.

(** [%v] applied to an [int]: its decimal form. *)
Definition fmt_int (n : Z) : string := pretty n.

(** [main.go], [plural]. *)
Definition plural (n : Z) : string :=
  if Z.eqb n 1 then "" else "s".

(** ** The streaming pipeline of [main] *)

(** An item of the channel [blobs]: a [blobserver.BlobAndToken], reduced to
    what [main] asks of it: [blob.Ref()] in its printed form, and the result
    of [blob.ValidContents(ctx)], [None] standing for the [nil] error. *)
Record BlobAndToken : Type := {
  Ref : string;
  ValidContents : option string
}.

(** What the process writes, in the order it writes it. *)
Inductive Output : Type :=
| Stdout (text : string)
| Stderr (text : string).

(** The progress line printed after each blob, lines 226-230 of [main.go]. *)
Definition progress (valid invalid : Z) : string :=
  if Z.eqb invalid 0 then
    " verified " +:+ fmt_int valid +:+ " blob" +:+ plural valid +:+ "..." +:+ cr
  else
    " " +:+ fmt_int invalid +:+ " invalid blob" +:+ plural invalid +:+ ", "
        +:+ fmt_int valid +:+ " valid blob" +:+ plural valid +:+ cr.

(** [fmt.Println("found invalid blob:", blob.Ref())] *)
Definition found_invalid (blob : BlobAndToken) : string :=
  "found invalid blob: " +:+ Ref blob +:+ nl.

(** One turn of the loop [for blob := range blobs], lines 220-230: the new
    tallies and what the turn prints. *)
Definition consume1 (blob : BlobAndToken) (valid invalid : Z)
  : Z * Z * list Output :=
  let '(valid, invalid, out) :=
    match ValidContents blob with
    | None => (GoInt.incr valid, invalid, [])
    | Some _ => (valid, GoInt.incr invalid, [Stdout (found_invalid blob)])
    end in
  (valid, invalid, out ++ [Stdout (progress valid invalid)]).

(** The loop [for blob := range blobs], lines 219-231, over the blobs the
    channel delivers, in the order the producer sent them. *)
Fixpoint consume (blobs : list BlobAndToken) (valid invalid : Z)
  : Z * Z * list Output :=
  match blobs with
  | [] => (valid, invalid, [])
  | blob :: rest =>
      let '(valid, invalid, out1) := consume1 blob valid invalid in
      let '(valid, invalid, out2) := consume rest valid invalid in
      (valid, invalid, out1 ++ out2)
  end.

(** The final summary, lines 232-236. *)
Definition summary (valid invalid : Z) : string :=
  if Z.eqb invalid 0 then
    "verified all " +:+ fmt_int valid +:+ " blobs" +:+ nl
  else
    "CORRUPTION DETECTED: " +:+ fmt_int invalid +:+ " of "
      +:+ fmt_int (GoInt.add valid invalid)
      +:+ " blobs failed validation. Their refs are listed above." +:+ nl.

(** The behaviour of the producer goroutine,
    [streamer.StreamBlobs(ctx, blobs, "")]: the blobs it sends on the
    unbuffered channel before closing it, and the error it returns, which
    [wg.Err()] hands to [main] once the goroutine is done. *)
Record Stream : Type := {
  sent : list BlobAndToken;
  streamErr : option string
}.

(** Lines 212-248 of [main]: drain the channel, print the summary, then
    look at the producer's error and at the tally.  The result is the output
    and the exit status (0 when [main] returns normally). *)
Definition verifyBlobs (s : Stream) : list Output * Z :=
  let '(valid, invalid, out) := consume (sent s) 0 0 in
  let out := out ++ [Stdout (summary valid invalid)] in
  match streamErr s with
  | Some err =>
      (out ++ [Stderr ("pk-verify: error while streaming blobs: " +:+ err +:+ nl)], 1)
  | None =>
      if Z.ltb 0 invalid then (out, 2) else (out, 0)
  end.

(** A blob whose contents match its ref, and one whose contents do not. *)
Definition good (ref : string) : BlobAndToken :=
  {| Ref := ref; ValidContents := None |}.
Definition bad (ref : string) : BlobAndToken :=
  {| Ref := ref; ValidContents := Some "blob content does not match its ref" |}.


(** ** Go errors

    The [error] values this program makes or passes on.  The messages built
    with [fmt.Errorf] and [%q] are kept in structured form, one constructor
    per format string, so that the prefix and the field an error names can be
    read off it. *)
Inductive error : Type :=
| errorString (msg : string)
    (* [errors.New(msg)], and the errors of the storage constructors *)
| errNoStorageConfig (prefix : string)
    (* "no storage configuration found for this prefix: %q" *)
| errMissingKey (key kind : string)
    (* jsonconfig: "Missing required config key %q (kind)" *)
| errExpectedObject (key : string)
    (* jsonconfig: "Expected config key %q to be an object, ..." *)
| errExpectedString (key : string)
    (* jsonconfig: "Expected config key %q to be a string" *)
| errUnknownKey (key : string)
    (* jsonconfig: "Unknown key %q" *)
| errMultiple (errs : list error)
    (* jsonconfig: "Multiple errors: " followed by the messages *)
| errInPrefix (prefix : string) (err : error)
    (* "In prefixes[%q]: %w" *)
| errInPrefixesMap (err : error).
    (* the same wrapping for the prefixes map itself: "In the ... map: %w" *)

(** ** JSON documents and [jsonconfig.Obj]

    A decoded JSON value.  An object keeps its members as an association
    list that is read as a map: a lookup takes the first binding of the key.
    Go leaves the order of [range] over a map unspecified; here the loop
    visits the members in the order of the list, and the theorems below hold
    for every list, hence for every order. *)
Inductive JSON : Type :=
| JNull
| JBool (b : bool)
| JNumber (literal : string)
| JString (s : string)
| JArray (items : list JSON)
| JObject (members : list (string * JSON)).

(** [strings.HasPrefix(s, prefix)] *)
Definition HasPrefix (s prefix : string) : bool := String.prefix prefix s.

(** [s[n:]] *)
Fixpoint string_drop (n : nat) (s : string) : string :=
  match n, s with
  | O, _ => s
  | S n, String _ s => string_drop n s
  | S _, EmptyString => EmptyString
  end.

(** [strings.TrimPrefix(s, prefix)] *)
Definition TrimPrefix (s prefix : string) : string :=
  if HasPrefix s prefix then string_drop (String.length prefix) s else s.

(** [sort.Strings]: insertion into a list ordered by the byte-wise
    lexicographic order. *)
Fixpoint sort_insert (k : string) (l : list string) : list string :=
  match l with
  | [] => [k]
  | x :: l' => if String.leb k x then k :: l else x :: sort_insert k l'
  end.

Definition sort_Strings (l : list string) : list string :=
  foldr sort_insert [] l.

Module jsonconfig.

(** [go4.org/jsonconfig] is a library this program imports.  Its [Obj] is a
    Go map that also remembers which keys the accessors have asked for and
    which errors they met; [Validate] reports these errors and the keys
    nobody asked for.  The library keeps the two in the map itself, under the
    reserved keys [_knownkeys] and [_errors]; here they are fields of their
    own, and a document that binds these two reserved keys itself is outside
    the model. *)
Record Obj : Type := {
  members : list (string * JSON);
  knownkeys : gset string;
  errors : list error
}.

(** [make(Obj)] *)
Definition empty : Obj :=
  {| members := []; knownkeys := ∅; errors := [] |}.

(** A JSON object as it comes out of the decoder, or out of its parent
    object: nothing asked for yet, no error met. *)
Definition fresh (m : list (string * JSON)) : Obj :=
  {| members := m; knownkeys := ∅; errors := [] |}.

(** [m[key]] *)
Fixpoint get (key : string) (m : list (string * JSON)) : option JSON :=
  match m with
  | [] => None
  | (k, v) :: m' => if String.eqb k key then Some v else get key m'
  end.

(** [delete(m, key)] *)
Definition remove (key : string) (m : list (string * JSON))
  : list (string * JSON) :=
  List.filter (fun kv => negb (String.eqb (fst kv) key)) m.

Definition noteKnownKey (jc : Obj) (key : string) : Obj :=
  {| members := members jc;
     knownkeys := {[ key ]} ∪ knownkeys jc;
     errors := errors jc |}.

Definition appendError (jc : Obj) (err : error) : Obj :=
  {| members := members jc;
     knownkeys := knownkeys jc;
     errors := errors jc ++ [err] |}.

(** [jc.RequiredObject(key)]: the object under [key], or an empty object and
    an error noted in [jc]. *)
Definition RequiredObject (jc : Obj) (key : string) : Obj * Obj :=
  let jc := noteKnownKey jc key in
  match get key (members jc) with
  | None => (appendError jc (errMissingKey key "object"), empty)
  | Some (JObject m) => (jc, fresh m)
  | Some _ => (appendError jc (errExpectedObject key), empty)
  end.

(** [jc.RequiredString(key)]: the string under [key], or the empty string
    and an error noted in [jc]. *)
Definition RequiredString (jc : Obj) (key : string) : Obj * string :=
  let jc := noteKnownKey jc key in
  match get key (members jc) with
  | None => (appendError jc (errMissingKey key "string"), "")
  | Some (JString s) => (jc, s)
  | Some _ => (appendError jc (errExpectedString key), "")
  end.

(** [jc.UnknownKeys()]: the keys no accessor asked for, sorted; a key that
    starts with an underscore is a comment and is never reported. *)
Definition UnknownKeys (jc : Obj) : list string :=
  sort_Strings
    (List.filter (fun k => negb (bool_decide (k ∈ knownkeys jc))
                      && negb (HasPrefix k "_"))
            (map fst (members jc))).

(** [jc.Validate()]: notes every unknown key as an error, then returns the
    single error noted, or all of them in one, or [nil]. *)
Definition Validate (jc : Obj) : Obj * option error :=
  let jc := fold_left (fun jc k => appendError jc (errUnknownKey k))
                      (UnknownKeys jc) jc in
  match errors jc with
  | [] => (jc, None)
  | [err] => (jc, Some err)
  | errs => (jc, Some (errMultiple errs))
  end.

End jsonconfig.

Import jsonconfig.

(** ** The low-level configuration, [main.go] lines 108-162 *)

Record StorageConfig : Type := {
  StorageHandler : string;
  StorageHandlerArgs : Obj
}.

Record LowLevelConfig : Type := {
  Prefixes : gmap string StorageConfig
}.

(** [deleteUnknownFields] *)
Definition deleteUnknownFields (obj : Obj) : Obj :=
  fold_left (fun obj f =>
               {| members := remove f (members obj);
                  knownkeys := knownkeys obj;
                  errors := errors obj |})
            (UnknownKeys obj) obj.

(** The body of the loop of [parseLowLevelConfig], lines 140-152, for a
    prefix that is not a comment: the error of the entry if it does not
    validate, or [prefixes] and the result after the entry. *)
Definition visitPrefix (prefixes : Obj) (prefix : string)
    (result : gmap string StorageConfig)
  : Obj * gmap string StorageConfig + error :=
  let '(prefixes, handler) := RequiredObject prefixes prefix in
  let '(handler, name) := RequiredString handler "handler" in
  let storageName := TrimPrefix name "storage-" in
  let '(handler, result) :=
    if negb (String.eqb storageName name) then
      let '(handler, args) := RequiredObject handler "handlerArgs" in
      (handler,
       <[prefix := {| StorageHandler := storageName;
                      StorageHandlerArgs := args |}]> result)
    else (deleteUnknownFields handler, result) in
  match Validate handler with
  | (_, Some err) => inr (errInPrefix prefix err)
  | (_, None) => inl (prefixes, result)
  end.

(** The loop [for prefix := range prefixes], lines 136-154, over the keys
    still to visit.  It ends with the error of the first entry that does not
    validate, or with [prefixes] and the result built. *)
Fixpoint rangePrefixes (keys : list string) (prefixes : Obj)
    (result : gmap string StorageConfig)
  : Obj * gmap string StorageConfig + error :=
  match keys with
  | [] => inl (prefixes, result)
  | prefix :: keys =>
      if HasPrefix prefix "_" then rangePrefixes keys prefixes result
      else
        match visitPrefix prefixes prefix result with
        | inr err => inr err
        | inl (prefixes, result) => rangePrefixes keys prefixes result
        end
  end.

(** [parseLowLevelConfig] *)
Definition parseLowLevelConfig (obj : Obj) : LowLevelConfig + error :=
  let '(obj, prefixes) := RequiredObject obj "prefixes" in
  let obj := deleteUnknownFields obj in
  match rangePrefixes (map fst (members prefixes)) prefixes ∅ with
  | inr err => inr err
  | inl (prefixes, result) =>
      match Validate obj with
      | (_, Some err) => inr err
      | (_, None) =>
          match Validate prefixes with
          | (_, Some err) => inr (errInPrefixesMap err)
          | (_, None) => inl {| Prefixes := result |}
          end
      end
  end.

(** ** The loader, [loader.go] *)

Section Loader.

(** The backends, [blobserver.Storage], and the handlers, [interface{}],
    are values of the storage packages; the loader only stores and returns
    them. *)
Context {Storage Handler : Type}.

Record Loader : Type := {
  mu : bool;                            (* [sync.Mutex]: [true] while held *)
  sto : option (gmap string Storage);   (* [None] is the [nil] map *)
  conf : LowLevelConfig
}.

(** [NewLoader] *)
Definition NewLoader (conf : LowLevelConfig) : Loader :=
  {| mu := false; sto := None; conf := conf |}.

(** How a call on the loader ends: it returns a value and leaves the loader
    in a new state, or it panics, or the goroutine blocks for ever in
    [ld.mu.Lock()].  [built] lists, in order, the prefixes for which the call
    ran [blobserver.CreateStorage]; it is not part of the program's state. *)
Inductive Outcome (A : Type) : Type :=
| Returns (a : A) (ld : Loader) (built : list string)
| Panics (msg : string)
| Blocks
| OutOfFuel.
Arguments Returns {A} a ld built.
Arguments Panics {A} msg.
Arguments Blocks {A}.
Arguments OutOfFuel {A}.

(** What a storage constructor does with the [blobserver.Loader] it is
    given: it returns a backend or an error, or it first calls back into the
    loader and goes on with what the call returned. *)
Inductive Construction : Type :=
| Return (r : Storage + error)
| CallGetStorage (prefix : string) (k : Storage + error -> Construction)
| CallSetStorage (prefix : string) (s : Storage) (k : Construction).

(** [blobserver.CreateStorage(typ, ld, args)] belongs to the storage
    packages: it picks the constructor registered for [typ]. *)
Variable CreateStorage : string -> Obj -> Construction.

(** [ld.mu.Lock()]: [None] when the mutex is held, in which case the caller
    blocks until it is released. *)
Definition Lock (ld : Loader) : option Loader :=
  if mu ld then None
  else Some {| mu := true; sto := sto ld; conf := conf ld |}.

(** [ld.mu.Unlock()] *)
Definition Unlock (ld : Loader) : Loader :=
  {| mu := false; sto := sto ld; conf := conf ld |}.

(** [if ld.sto == nil { ld.sto = make(map[string]blobserver.Storage) }] *)
Definition makeSto (ld : Loader) : Loader :=
  match sto ld with
  | None => {| mu := mu ld; sto := Some ∅; conf := conf ld |}
  | Some _ => ld
  end.

(** [ld.sto[prefix] = s]; the assignment panics on a [nil] map. *)
Definition assignSto (ld : Loader) (prefix : string) (s : Storage)
  : option Loader :=
  match sto ld with
  | None => None
  | Some m => Some {| mu := mu ld; sto := Some (<[prefix := s]> m);
                      conf := conf ld |}
  end.

(** [ld.sto[prefix]], which finds nothing in a [nil] map. *)
Definition lookupSto (ld : Loader) (prefix : string) : option Storage :=
  match sto ld with
  | None => None
  | Some m => m !! prefix
  end.

Definition FindHandlerByType (ld : Loader) (handlerType : string)
  : Outcome (string * option Handler * option error) :=
  Panics "NOIMPL".

Definition AllHandlers (ld : Loader)
  : Outcome (gmap string string * gmap string Handler) :=
  Panics "NOIMPL".

Definition MyPrefix (ld : Loader) : string := "/lies/".

Definition BaseURL (ld : Loader) : string := "http://localhost:1234".

(** [GetHandlerType] and [GetHandler]: the line given to [log.Printf] and
    the values returned. *)
Definition GetHandlerType (ld : Loader) (prefix : string) : string * string :=
  ("test.Loader: GetHandlerType called but not implemented.", "").

Definition GetHandler (ld : Loader) (prefix : string)
  : string * (option Handler * option error) :=
  ("test.Loader: GetHandler called but not implemented.",
   (None, Some (errorString "doesn't exist"))).

(** [SetStorage] *)
Definition SetStorage (ld : Loader) (prefix : string) (s : Storage)
  : Outcome unit :=
  match Lock ld with
  | None => Blocks
  | Some ld =>
      match assignSto (makeSto ld) prefix s with
      | None => Panics "assignment to entry in nil map"
      | Some ld => Returns tt (Unlock ld) []
      end
  end.

(** Running a constructor against the loader: each call back is served by
    [get] or by [SetStorage] on the loader as it is at that moment. *)
Fixpoint construct (get : Loader -> string -> Outcome (Storage + error))
    (c : Construction) (ld : Loader) : Outcome (Storage + error) :=
  match c with
  | Return r => Returns r ld []
  | CallGetStorage prefix k =>
      match get ld prefix with
      | Returns r ld built1 =>
          match construct get (k r) ld with
          | Returns r' ld built2 => Returns r' ld (built1 ++ built2)
          | o => o
          end
      | o => o
      end
  | CallSetStorage prefix s k =>
      match SetStorage ld prefix s with
      | Returns _ ld built1 =>
          match construct get k ld with
          | Returns r' ld built2 => Returns r' ld (built1 ++ built2)
          | o => o
          end
      | Panics msg => Panics msg
      | Blocks => Blocks
      | OutOfFuel => OutOfFuel
      end
  end.

(** [GetStorage].  The deferred [Unlock] runs on each return.  [fuel] bounds
    the depth of the calls back from constructors into [GetStorage]. *)
Fixpoint GetStorage (fuel : nat) (ld : Loader) (prefix : string)
  : Outcome (Storage + error) :=
  match fuel with
  | O => OutOfFuel
  | S fuel =>
      match Lock ld with
      | None => Blocks
      | Some ld =>
          match lookupSto ld prefix with
          | Some bs => Returns (inl bs) (Unlock ld) []
          | None =>
              let ld := makeSto ld in
              match Prefixes (conf ld) !! prefix with
              | None => Returns (inr (errNoStorageConfig prefix)) (Unlock ld) []
              | Some stoConf =>
                  match construct (GetStorage fuel)
                          (CreateStorage (StorageHandler stoConf)
                                         (StorageHandlerArgs stoConf)) ld with
                  | Returns (inr err) ld built =>
                      Returns (inr err) (Unlock ld) (prefix :: built)
                  | Returns (inl s) ld built =>
                      match assignSto ld prefix s with
                      | None => Panics "assignment to entry in nil map"
                      | Some ld => Returns (inl s) (Unlock ld) (prefix :: built)
                      end
                  | o => o
                  end
              end
          end
      end
  end.

(** A client of the loader making one call after the other. *)
Inductive Request : Type :=
| ReqGetStorage (prefix : string)
| ReqSetStorage (prefix : string) (s : Storage).

Fixpoint serve (fuel : nat) (reqs : list Request) (ld : Loader)
  : Outcome (list (Storage + error)) :=
  match reqs with
  | [] => Returns [] ld []
  | ReqGetStorage prefix :: reqs =>
      match GetStorage fuel ld prefix with
      | Returns r ld built1 =>
          match serve fuel reqs ld with
          | Returns rs ld built2 => Returns (r :: rs) ld (built1 ++ built2)
          | o => o
          end
      | Panics msg => Panics msg
      | Blocks => Blocks
      | OutOfFuel => OutOfFuel
      end
  | ReqSetStorage prefix s :: reqs =>
      match SetStorage ld prefix s with
      | Returns _ ld built1 =>
          match serve fuel reqs ld with
          | Returns rs ld built2 => Returns rs ld (built1 ++ built2)
          | o => o
          end
      | Panics msg => Panics msg
      | Blocks => Blocks
      | OutOfFuel => OutOfFuel
      end
  end.

End Loader.

(** [prefix] has a backend in the cache of [ld]. *)
Definition cached {Storage : Type} (prefix : string) (ld : Loader) : Prop :=
  is_Some (@lookupSto Storage ld prefix).

Arguments Loader Storage : clear implicits.
Arguments Outcome Storage A : clear implicits.
Arguments Construction Storage : clear implicits.
Arguments Request Storage : clear implicits.
Arguments Returns {Storage A} a ld built.
Arguments Panics {Storage A} msg.
Arguments Blocks {Storage A}.
Arguments OutOfFuel {Storage A}.


(** ** [main] *)

Definition dq : string := String "034"%char EmptyString.
Definition tab : string := String "009"%char EmptyString.

(** What [main] takes from the packages around it. *)
Record Env {Storage : Type} : Type := {
  (* [serverinit.LoadFile(path)] followed by [config.LowLevelJSONConfig()]:
     the text of the error, or the low-level document *)
  LoadFile : string -> string + list (string * JSON);
  (* [blobserver.CreateStorage] *)
  envCreateStorage : string -> Obj -> Construction Storage;
  (* [sto.(blobserver.BlobStreamer)], and what [StreamBlobs] then does *)
  BlobStreamer : Storage -> option Stream;
  (* [%v] applied to an error *)
  Error : error -> string;
  (* [%q] applied to a string *)
  Quote : string -> string
}.
Arguments Env Storage : clear implicits.

(** How the process ends. *)
Inductive Process : Type :=
| Exits (out : list Output) (status : Z)
| Crashes (out : list Output) (msg : string)
| Hangs (out : list Output)
| Unfinished.

Definition unrecognized : string :=
  "pk-verify: I do not recognize the format of this server config, and cannot continue :("
  +:+ nl.

(** [main], with [os.Args] as its argument. *)
Definition main {Storage : Type} (env : Env Storage) (fuel : nat)
    (Args : list string) : Process :=
  match Args with
  | [] => Crashes [] "index out of range"
  | [arg0; path] =>
      match LoadFile env path with
      | inl err => Exits [Stderr ("pk-verify: " +:+ err +:+ nl)] 1
      | inr config =>
          match parseLowLevelConfig (fresh config) with
          | inr err =>
              Exits [Stderr unrecognized; Stderr nl;
                     Stderr ("Here's specifically what surprised me in the (low-level expansion of the) config:"
                             +:+ nl +:+ nl +:+ tab +:+ Error env err +:+ nl)] 1
          | inl lowLevelConfig =>
              match Prefixes lowLevelConfig !! "/bs/" with
              | None =>
                  Exits [Stderr unrecognized; Stderr nl;
                         Stderr ("Specifically, I expect the low-level expansion of the config to contain a "
                                 +:+ dq +:+ "/bs/" +:+ dq
                                 +:+ " prefix, and it does not." +:+ nl)] 1
              | Some bs =>
                  match construct (GetStorage (envCreateStorage env) fuel)
                          (envCreateStorage env (StorageHandler bs)
                                            (StorageHandlerArgs bs))
                          (NewLoader lowLevelConfig) with
                  | Returns (inr err) _ _ =>
                      Exits [Stderr ("pk-verify: failed to load blob storage: "
                                     +:+ Error env err +:+ nl)] 1
                  | Returns (inl sto) _ _ =>
                      match BlobStreamer env sto with
                      | None =>
                          Exits [Stderr ("pk-verify does not support the "
                                         +:+ Quote env (StorageHandler bs)
                                         +:+ " blobserver. :(" +:+ nl);
                                 Stderr nl;
                                 Stderr ("I can only handle blobservers that implement BlobStreamer (that is, blobservers that allow a fast interface to streaming the contents of all blobs)."
                                         +:+ nl)] 1
                      | Some stream =>
                          let '(out, status) := verifyBlobs stream in
                          Exits out status
                      end
                  | Panics msg => Crashes [] msg
                  | Blocks => Hangs []
                  | OutOfFuel => Unfinished
                  end
              end
          end
      end
  | arg0 :: _ =>
      Exits [Stderr ("Usage: " +:+ arg0 +:+ " <path to perkeep server config file>" +:+ nl);
             Stderr nl;
             Stderr ("Example: " +:+ arg0 +:+ " ~/.config/perkeep/server-config.json" +:+ nl)] 1
  end.

(** ** Counting a stream *)

(** [blob.ValidContents(ctx) == nil] *)
Definition isValid (blob : BlobAndToken) : bool :=
  match ValidContents blob with
  | None => true
  | Some _ => false
  end.

(** The number of blobs of a list whose contents match their ref, and the
    number of those whose contents do not. *)
Definition nValid (blobs : list BlobAndToken) : Z :=
  Z.of_nat (length (List.filter isValid blobs)).
Definition nInvalid (blobs : list BlobAndToken) : Z :=
  Z.of_nat (length (List.filter (fun b => negb (isValid b)) blobs)).

(** What the loop is expected to print for [blob], the last of the blobs
    [seen] so far: the ref of the blob on a line of its own if its contents
    do not match, then the progress line for the blobs seen. *)
Definition lines_for (seen : list BlobAndToken) (blob : BlobAndToken)
  : list Output :=
  (if isValid blob then [] else [Stdout (found_invalid blob)])
  ++ [Stdout (progress (nValid seen) (nInvalid seen))].

Fixpoint report (seen rest : list BlobAndToken) : list Output :=
  match rest with
  | [] => []
  | blob :: rest => lines_for (seen ++ [blob]) blob ++ report (seen ++ [blob]) rest
  end.

(** The progress line as the specification words it: both forms end in an
    ellipsis (before the carriage return that lets the next line overwrite
    it). *)
Definition claimed_progress (valid invalid : Z) : string :=
  if Z.eqb invalid 0 then
    " verified " +:+ fmt_int valid +:+ " blob" +:+ plural valid +:+ "..." +:+ cr
  else
    " " +:+ fmt_int invalid +:+ " invalid blob" +:+ plural invalid +:+ ", "
        +:+ fmt_int valid +:+ " valid blob" +:+ plural valid +:+ "..." +:+ cr.

(** ** An example installation

    The configuration of the comment at the head of [main.go], a packed
    store over two filesystem stores, with constructors in the manner of the
    [filesystem] and [blobpacked] packages: the first needs nothing from the
    loader, the second asks it for its two sub-stores.  A backend is
    represented by a description of how it was built. *)
Module Example.

Definition jsonFilesystem (path : string) : JSON :=
  JObject [("handler", JString "storage-filesystem");
           ("handlerArgs", JObject [("path", JString path)])].

Definition jsonBlobpacked (small large : string) : JSON :=
  JObject [("handler", JString "storage-blobpacked");
           ("handlerArgs",
            JObject [("largeBlobs", JString large);
                     ("metaIndex",
                      JObject [("file", JString "/Users/jeremy/pk/blobs/packed/packindex.leveldb");
                               ("type", JString "leveldb")]);
                     ("smallBlobs", JString small)])].

Definition document : list (string * JSON) :=
  [("prefixes",
    JObject [("/bs-loose/", jsonFilesystem "/Users/jeremy/pk/blobs");
             ("/bs-packed/", jsonFilesystem "/Users/jeremy/pk/blobs/packed");
             ("/bs/", jsonBlobpacked "/bs-loose/" "/bs-packed/")])].

(** The same with the loose blobs themselves kept in a packed store over two
    more filesystem stores: no prefix depends on itself. *)
Definition documentNested : list (string * JSON) :=
  [("prefixes",
    JObject [("/bs-loose/", jsonBlobpacked "/loose-small/" "/loose-large/");
             ("/loose-small/", jsonFilesystem "/Users/jeremy/pk/loose/small");
             ("/loose-large/", jsonFilesystem "/Users/jeremy/pk/loose/large");
             ("/bs-packed/", jsonFilesystem "/Users/jeremy/pk/blobs/packed");
             ("/bs/", jsonBlobpacked "/bs-loose/" "/bs-packed/")])].

Definition CreateStorage (typ : string) (args : Obj) : Construction string :=
  if String.eqb typ "filesystem" then
    Return (inl ("filesystem " +:+ snd (RequiredString args "path")))
  else if String.eqb typ "blobpacked" then
    CallGetStorage (snd (RequiredString args "smallBlobs")) (fun small =>
      match small with
      | inr err => Return (inr err)
      | inl small =>
          CallGetStorage (snd (RequiredString args "largeBlobs")) (fun large =>
            match large with
            | inr err => Return (inr err)
            | inl large =>
                Return (inl ("blobpacked (" +:+ small +:+ ") (" +:+ large +:+ ")"))
            end)
      end)
  else Return (inr (errorString "unknown storage type")).

(** The configuration [parseLowLevelConfig] makes of a document; the empty
    one if it rejects the document. *)
Definition configOf (doc : list (string * JSON)) : LowLevelConfig :=
  match parseLowLevelConfig (fresh doc) with
  | inl c => c
  | inr _ => {| Prefixes := ∅ |}
  end.

Definition stream : Stream :=
  {| sent := [good "sha224-a"; good "sha224-b"]; streamErr := None |}.

Definition env (doc : list (string * JSON)) : Env string :=
  {| LoadFile := fun _ => inr doc;
     envCreateStorage := CreateStorage;
     BlobStreamer := fun _ => Some stream;
     Error := fun _ => "error";
     Quote := fun s => dq +:+ s +:+ dq |}.

End Example.

(** ** Reading configuration errors *)

(** What [Validate] returns, as a function of all the errors it has in the end. *)
Definition verdict (errs : list error) : option error :=
  match errs with
  | [] => None
  | [err] => Some err
  | errs => Some (errMultiple errs)
  end.

(** A key that is not a comment. *)
Definition notComment (k : string) : bool := negb (HasPrefix k "_").


(** Two objects that differ at most in their comment members. *)
Definition sameButComments (jc jc' : Obj) : Prop :=
  knownkeys jc = knownkeys jc'
  /\ errors jc = errors jc'
  /\ (forall k, notComment k = true -> get k (members jc) = get k (members jc'))
  /\ List.filter notComment (map fst (members jc))
     = List.filter notComment (map fst (members jc')).

(** ** Reading one entry of [prefixes] *)

(** What one turn of the loop of [parseLowLevelConfig] makes of the value
    [v] bound to [prefix] ([None] when nothing is bound): the error of the
    turn, or the storage configuration the turn records, if any. *)
Definition entry (prefix : string) (v : option JSON)
  : option StorageConfig + error :=
  match visitPrefix
          (fresh (match v with Some x => [(prefix, x)] | None => [] end))
          prefix ∅ with
  | inr err => inr err
  | inl (_, result) => inl (result !! prefix)
  end.

(** The fields a [storage-] entry may carry besides comments. *)
Definition storageField (f : string) : Prop :=
  f = "handler" \/ f = "handlerArgs" \/ notComment f = false.

(** The entries the loop lets pass: an object with a string [handler]
    which, when the handler has the form [storage-<name>], also has an object
    [handlerArgs] and no other field than comments. *)
Definition acceptable (v : option JSON) : Prop :=
  exists h name,
    v = Some (JObject h)
    /\ get "handler" h = Some (JString name)
    /\ (HasPrefix name "storage-" = true ->
        (exists args, get "handlerArgs" h = Some (JObject args))
        /\ forall f, In f (map fst h) -> storageField f).

(** The result of the loop at [q], read off the entries: the configuration
    of the entry at [q] if the loop visits [q] and records one, and what the
    result held before otherwise. *)
Definition resultAt (m : list (string * JSON)) (keys : list string)
    (result : gmap string StorageConfig) (q : string) : option StorageConfig :=
  if bool_decide (q ∈ keys) && notComment q then
    match entry q (get q m) with
    | inl (Some sc) => Some sc
    | _ => result !! q
    end
  else result !! q.

(** An output written to the standard error. *)
Definition isStderr (o : Output) : Prop :=
  match o with
  | Stderr _ => True
  | Stdout _ => False
  end.



(** * Theorems *)

(** ** Go's [int] *)

Lemma wrap_small z : GoInt.MinInt <= z <= GoInt.MaxInt -> GoInt.wrap z = z.
Proof.
  unfold GoInt.wrap, GoInt.MinInt, GoInt.MaxInt. intros Hz.
  rewrite Z.mod_small by lia. lia.
Qed.

Lemma incr_small n : 0 <= n < GoInt.MaxInt -> GoInt.incr n = n + 1.
Proof.
  intros Hn. unfold GoInt.incr. apply wrap_small.
  unfold GoInt.MinInt, GoInt.MaxInt in *. lia.
Qed.

Lemma add_small a b :
  0 <= a -> 0 <= b -> a + b <= GoInt.MaxInt -> GoInt.add a b = a + b.
Proof.
  intros Ha Hb Hab. unfold GoInt.add. apply wrap_small.
  unfold GoInt.MinInt, GoInt.MaxInt in *. lia.
Qed.

(** ** The pipeline *)

Lemma nValid_nonneg blobs : 0 <= nValid blobs.
Proof. unfold nValid. lia. Qed.

Lemma nInvalid_nonneg blobs : 0 <= nInvalid blobs.
Proof. unfold nInvalid. lia. Qed.

Lemma nValid_snoc seen blob :
  nValid (seen ++ [blob]) = nValid seen + (if isValid blob then 1 else 0).
Proof.
  unfold nValid. rewrite List.filter_app, length_app. simpl.
  destruct (isValid blob); simpl; lia.
Qed.

Lemma nInvalid_snoc seen blob :
  nInvalid (seen ++ [blob]) = nInvalid seen + (if isValid blob then 0 else 1).
Proof.
  unfold nInvalid. rewrite List.filter_app, length_app. simpl.
  destruct (isValid blob); simpl; lia.
Qed.

Lemma tallies_total blobs :
  nValid blobs + nInvalid blobs = Z.of_nat (length blobs).
Proof.
  unfold nValid, nInvalid.
  induction blobs as [|b blobs IH]; simpl; [reflexivity|].
  destruct (isValid b); simpl; lia.
Qed.

Lemma nInvalid_zero_iff blobs :
  nInvalid blobs = 0 <-> Forall (fun b => isValid b = true) blobs.
Proof.
  unfold nInvalid. induction blobs as [|b blobs IH]; simpl.
  - split; [constructor | reflexivity].
  - destruct (isValid b) eqn:Hb; simpl.
    + rewrite IH. split; [by constructor | by inversion 1].
    + split; [lia | inversion 1; congruence].
Qed.

(** One turn of the loop, while the tallies are those of the blobs seen and
    the [int]s have room for one more. *)
Lemma consume1_seen seen blob :
  Z.of_nat (length (seen ++ [blob])) <= GoInt.MaxInt ->
  consume1 blob (nValid seen) (nInvalid seen)
  = (nValid (seen ++ [blob]), nInvalid (seen ++ [blob]),
     lines_for (seen ++ [blob]) blob).
Proof.
  intros Hlen. rewrite length_app in Hlen. simpl in Hlen.
  pose proof (tallies_total seen) as Htot.
  pose proof (nValid_nonneg seen) as Hv.
  pose proof (nInvalid_nonneg seen) as Hi.
  unfold consume1, lines_for, isValid.
  rewrite nValid_snoc, nInvalid_snoc. unfold isValid.
  destruct (ValidContents blob) as [e|].
  - rewrite incr_small by lia. by rewrite Z.add_0_r.
  - rewrite incr_small by lia. by rewrite Z.add_0_r.
Qed.

(** The loop counts every blob it is given and prints [report]. *)
Lemma consume_seen rest : forall seen,
  Z.of_nat (length (seen ++ rest)) <= GoInt.MaxInt ->
  consume rest (nValid seen) (nInvalid seen)
  = (nValid (seen ++ rest), nInvalid (seen ++ rest), report seen rest).
Proof.
  induction rest as [|blob rest IH]; intros seen Hlen.
  - simpl. by rewrite app_nil_r.
  - simpl. rewrite consume1_seen.
    2:{ rewrite !length_app in *. simpl in *. lia. }
    replace (seen ++ blob :: rest) with ((seen ++ [blob]) ++ rest) in *
      by (by rewrite <- app_assoc).
    by rewrite IH.
Qed.

Lemma consume_all blobs :
  Z.of_nat (length blobs) <= GoInt.MaxInt ->
  consume blobs 0 0 = (nValid blobs, nInvalid blobs, report [] blobs).
Proof. intros Hlen. by apply (consume_seen blobs []). Qed.

Lemma consume_app blobs1 : forall blobs2 valid invalid,
  consume (blobs1 ++ blobs2) valid invalid
  = (let '(valid1, invalid1, out1) := consume blobs1 valid invalid in
     let '(valid2, invalid2, out2) := consume blobs2 valid1 invalid1 in
     (valid2, invalid2, out1 ++ out2)).
Proof.
  induction blobs1 as [|blob blobs1 IH]; intros blobs2 valid invalid; simpl.
  - by destruct (consume blobs2 valid invalid) as [[v i] o].
  - destruct (consume1 blob valid invalid) as [[v1 i1] o1].
    rewrite IH.
    destruct (consume blobs1 v1 i1) as [[v2 i2] o2].
    destruct (consume blobs2 v2 i2) as [[v3 i3] o3].
    by rewrite app_assoc.
Qed.

Lemma report_snoc rest : forall seen blob,
  report seen (rest ++ [blob])
  = report seen rest ++ lines_for (seen ++ rest ++ [blob]) blob.
Proof.
  induction rest as [|b rest IH]; intros seen blob; simpl.
  - by rewrite app_nil_r.
  - rewrite IH. rewrite <- !app_assoc. reflexivity.
Qed.


Lemma report_length rest : forall seen,
  length (report seen rest) = (length rest + Z.to_nat (nInvalid rest))%nat.
Proof.
  unfold nInvalid. induction rest as [|b rest IH]; intros seen; simpl.
  - reflexivity.
  - rewrite length_app, IH. unfold lines_for.
    destruct (isValid b); simpl; lia.
Qed.



(** C4.  Streaming fault after partial success.  When the producer sends M
    blobs that all validate and then fails with an error, the loop still
    drains the M blobs (one progress line each, tallies valid = M and
    invalid = 0), the summary "verified all M blobs" is printed, the
    streaming error is written only after it, and the exit status is 1. *)
Theorem streaming_fault_keeps_tallies (blobs : list BlobAndToken) (err : string) :
  Z.of_nat (length blobs) <= GoInt.MaxInt ->
  Forall (fun blob => isValid blob = true) blobs ->
  consume blobs 0 0 = (Z.of_nat (length blobs), 0, report [] blobs)
  /\ length (report [] blobs) = length blobs
  /\ verifyBlobs {| sent := blobs; streamErr := Some err |}
     = (report [] blobs
          ++ [Stdout ("verified all " +:+ fmt_int (Z.of_nat (length blobs))
                        +:+ " blobs" +:+ nl);
              Stderr ("pk-verify: error while streaming blobs: " +:+ err +:+ nl)],
        1).
Proof.
  intros Hlen Hall.
  apply nInvalid_zero_iff in Hall.
  pose proof (tallies_total blobs) as Htot. rewrite Hall in Htot.
  assert (consume blobs 0 0 = (Z.of_nat (length blobs), 0, report [] blobs)) as Hc.
  { rewrite consume_all by done. rewrite Hall. f_equal. f_equal. lia. }
  split; [exact Hc|]. split.
  - rewrite report_length, Hall. simpl. lia.
  - unfold verifyBlobs. simpl. rewrite Hc. simpl.
    by rewrite <- app_assoc.
Qed.

Lemma streaming_fault_keeps_tallies_witness :
  verifyBlobs {| sent := [good "sha224-a"; good "sha224-b"];
                 streamErr := Some "disk unplugged" |}
  = ([Stdout (" verified 1 blob..." +:+ cr);
      Stdout (" verified 2 blobs..." +:+ cr);
      Stdout ("verified all 2 blobs" +:+ nl);
      Stderr ("pk-verify: error while streaming blobs: disk unplugged" +:+ nl)],
     1).
Proof.
  destruct (streaming_fault_keeps_tallies
              [good "sha224-a"; good "sha224-b"] "disk unplugged")
    as (_ & _ & Hrun).
  - vm_compute. discriminate.
  - repeat constructor.
  - exact Hrun.
Defined.

(** C1, as stated, fails: a run in which a blob fails validation and the
    producer also returns a streaming error exits with status 1, not 2. *)
Lemma invalid_blob_and_streaming_error_exit_1 :
  0 < nInvalid (sent {| sent := [bad "sha224-b"]; streamErr := Some "read error" |})
  /\ snd (verifyBlobs {| sent := [bad "sha224-b"]; streamErr := Some "read error" |}) = 1
  /\ snd (verifyBlobs {| sent := [bad "sha224-b"]; streamErr := Some "read error" |}) <> 2.
Proof. vm_compute. repeat split; discriminate. Qed.

(** C1, amended.  In a run in which at least one blob fails validation, the
    corruption summary is printed in any case; the exit status is 2 when the
    producer returned no streaming error, and 1 when it returned one. *)
Theorem exit_status_of_corrupt_run (s : Stream) :
  Z.of_nat (length (sent s)) <= GoInt.MaxInt ->
  0 < nInvalid (sent s) ->
  In (Stdout ("CORRUPTION DETECTED: " +:+ fmt_int (nInvalid (sent s)) +:+ " of "
              +:+ fmt_int (Z.of_nat (length (sent s)))
              +:+ " blobs failed validation. Their refs are listed above." +:+ nl))
     (fst (verifyBlobs s))
  /\ snd (verifyBlobs s) = match streamErr s with
                           | None => 2
                           | Some _ => 1
                           end.
Proof.
  intros Hlen Hbad.
  pose proof (tallies_total (sent s)) as Htot.
  pose proof (nValid_nonneg (sent s)) as Hv.
  unfold verifyBlobs. rewrite consume_all by done.
  assert (summary (nValid (sent s)) (nInvalid (sent s))
          = "CORRUPTION DETECTED: " +:+ fmt_int (nInvalid (sent s)) +:+ " of "
              +:+ fmt_int (Z.of_nat (length (sent s)))
              +:+ " blobs failed validation. Their refs are listed above." +:+ nl)
    as ->.
  { unfold summary.
    destruct (Z.eqb_spec (nInvalid (sent s)) 0); [lia|].
    rewrite add_small by lia. by rewrite Htot. }
  destruct (streamErr s) as [err|]; simpl.
  - split; [|reflexivity].
    apply in_or_app. left. apply in_or_app. right. by left.
  - destruct (Z.ltb_spec 0 (nInvalid (sent s))); [|lia]. simpl.
    split; [|reflexivity].
    apply in_or_app. right. by left.
Qed.

Lemma exit_status_of_corrupt_run_witness :
  snd (verifyBlobs {| sent := [good "sha224-a"; bad "sha224-b"]; streamErr := None |}) = 2
  /\ snd (verifyBlobs {| sent := [good "sha224-a"; bad "sha224-b"];
                         streamErr := Some "read error" |}) = 1.
Proof.
  split.
  - apply (exit_status_of_corrupt_run
             {| sent := [good "sha224-a"; bad "sha224-b"]; streamErr := None |}).
    + vm_compute. discriminate.
    + vm_compute. reflexivity.
  - apply (exit_status_of_corrupt_run
             {| sent := [good "sha224-a"; bad "sha224-b"];
                streamErr := Some "read error" |}).
    + vm_compute. discriminate.
    + vm_compute. reflexivity.
Defined.

(** C7, as stated, fails: once a blob is invalid the progress line does not
    end in an ellipsis.  After a single invalid blob the loop prints
    " 1 invalid blob, 0 valid blobs" and a carriage return. *)
Lemma progress_line_without_ellipsis :
  last (snd (consume [bad "sha224-b"] 0 0))
  = Some (Stdout (" 1 invalid blob, 0 valid blobs" +:+ cr))
  /\ last (snd (consume [bad "sha224-b"] 0 0))
     <> Some (Stdout (claimed_progress 0 1)).
Proof. vm_compute. split; [reflexivity | discriminate]. Qed.

(** C7, amended.  After each blob the loop prints, as the last line of that
    turn, the progress line for the tallies N (valid) and I (invalid) of the
    blobs seen so far: " verified N blob(s)..." while I = 0, and
    " I invalid blob(s), N valid blob(s)" with no ellipsis from the first
    invalid blob on, each followed by a carriage return.  What is printed for
    the blobs seen so far stays the start of what the whole run prints. *)
Theorem progress_line_after_each_blob (seen : list BlobAndToken)
    (blob : BlobAndToken) (rest : list BlobAndToken) :
  Z.of_nat (length (seen ++ [blob])) <= GoInt.MaxInt ->
  last (snd (consume (seen ++ [blob]) 0 0))
  = Some (Stdout
      (if Z.eqb (nInvalid (seen ++ [blob])) 0 then
         " verified " +:+ fmt_int (nValid (seen ++ [blob])) +:+ " blob"
           +:+ plural (nValid (seen ++ [blob])) +:+ "..." +:+ cr
       else
         " " +:+ fmt_int (nInvalid (seen ++ [blob])) +:+ " invalid blob"
           +:+ plural (nInvalid (seen ++ [blob])) +:+ ", "
           +:+ fmt_int (nValid (seen ++ [blob])) +:+ " valid blob"
           +:+ plural (nValid (seen ++ [blob])) +:+ cr))
  /\ exists out, snd (consume ((seen ++ [blob]) ++ rest) 0 0)
                 = snd (consume (seen ++ [blob]) 0 0) ++ out.
Proof.
  intros Hlen. split.
  - rewrite consume_all by done. simpl.
    rewrite report_snoc. unfold lines_for. simpl.
    rewrite !app_assoc. by rewrite last_snoc.
  - rewrite consume_app.
    destruct (consume (seen ++ [blob]) 0 0) as [[v i] o].
    destruct (consume rest v i) as [[v' i'] o']. simpl. by exists o'.
Qed.

Lemma progress_line_after_each_blob_witness :
  last (snd (consume ([good "sha224-a"] ++ [bad "sha224-b"]) 0 0))
  = Some (Stdout (" 1 invalid blob, 1 valid blob" +:+ cr)).
Proof.
  destruct (progress_line_after_each_blob [good "sha224-a"] (bad "sha224-b") [])
    as [Hlast _].
  - vm_compute. discriminate.
  - exact Hlast.
Defined.

(** ** The loader *)

Section LoaderFacts.

Context {Storage : Type}.
Variable CreateStorage : string -> Obj -> Construction Storage.

Implicit Types (ld : Loader Storage) (prefix : string) (s : Storage).

Lemma Unlock_Lock ld ld' : Lock ld = Some ld' -> Unlock ld' = ld.
Proof.
  unfold Lock, Unlock. destruct ld as [[] m c]; simpl; [discriminate|].
  by intros [= <-].
Qed.

Lemma Lock_unlocked ld :
  mu ld = false -> Lock ld = Some {| mu := true; sto := sto ld; conf := conf ld |}.
Proof. unfold Lock. by intros ->. Qed.

Lemma Lock_held ld : mu ld = true -> Lock ld = None.
Proof. unfold Lock. by intros ->. Qed.

Lemma lookupSto_assignSto ld ld' prefix s :
  assignSto ld prefix s = Some ld' -> lookupSto ld' prefix = Some s.
Proof.
  unfold assignSto, lookupSto. destruct (sto ld) as [m|]; [|discriminate].
  intros [= <-]. simpl. apply lookup_insert_eq.
Qed.

Lemma cached_assignSto ld ld' prefix q s :
  cached prefix ld -> assignSto ld q s = Some ld' -> cached prefix ld'.
Proof.
  unfold cached, assignSto, lookupSto.
  destruct (sto ld) as [m|]; [|discriminate].
  intros Hc [= <-]. simpl.
  destruct (decide (q = prefix)) as [->|Hne].
  - rewrite lookup_insert_eq. by eexists.
  - by rewrite lookup_insert_ne.
Qed.

Lemma cached_makeSto ld prefix : cached prefix ld -> cached prefix (makeSto ld).
Proof.
  unfold cached, makeSto, lookupSto.
  destruct ld as [m [g|] c]; simpl; [done|]. intros [x Hx]. discriminate.
Qed.

Lemma lookupSto_makeSto ld prefix :
  lookupSto (makeSto ld) prefix = lookupSto ld prefix.
Proof. unfold makeSto, lookupSto. by destruct ld as [m [g|] c]. Qed.

(** A call that finds the mutex held does not return. *)
Lemma GetStorage_held fuel ld prefix :
  mu ld = true -> GetStorage CreateStorage (S fuel) ld prefix = Blocks.
Proof. intros Hmu. simpl. by rewrite Lock_held. Qed.

Lemma SetStorage_held ld prefix s :
  mu ld = true -> SetStorage ld prefix s = Blocks.
Proof. intros Hmu. unfold SetStorage. by rewrite Lock_held. Qed.

(** [SetStorage] on a free loader stores the backend and returns. *)
Lemma SetStorage_returns ld prefix s :
  mu ld = false ->
  exists ld', SetStorage ld prefix s = Returns tt ld' []
              /\ mu ld' = false /\ lookupSto ld' prefix = Some s.
Proof.
  intros Hmu. unfold SetStorage. rewrite Lock_unlocked by done.
  unfold makeSto, assignSto, lookupSto, Unlock. simpl.
  destruct (sto ld) as [m|]; simpl;
    (eexists; split; [reflexivity|]; split; [reflexivity|]; simpl;
     apply lookup_insert_eq).
Qed.

Lemma SetStorage_cached ld prefix q s u ld' built :
  cached prefix ld -> SetStorage ld q s = Returns u ld' built ->
  cached prefix ld' /\ built = [].
Proof.
  intros Hc. unfold SetStorage.
  destruct (Lock ld) as [ld1|] eqn:Hl; [|discriminate].
  assert (cached prefix ld1) as Hc1.
  { unfold Lock in Hl. destruct (mu ld); [discriminate|].
    injection Hl as <-. exact Hc. }
  destruct (assignSto (makeSto ld1) q s) as [ld2|] eqn:Ha; [|discriminate].
  intros [= <- <- <-]. split; [|reflexivity].
  eapply cached_assignSto in Ha; [|by apply cached_makeSto]. exact Ha.
Qed.

(** What the call-backs of a constructor preserve, given that [get] does. *)
Lemma construct_cached prefix
    (get : Loader Storage -> string -> Outcome Storage (Storage + error)) :
  (forall ld q r ld' built,
     cached prefix ld -> get ld q = Returns r ld' built ->
     cached prefix ld' /\ prefix ∉ built) ->
  forall c ld r ld' built,
    cached prefix ld -> construct get c ld = Returns r ld' built ->
    cached prefix ld' /\ prefix ∉ built.
Proof.
  intros Hget c.
  induction c as [r0|q k IH|q s k IH]; intros ld r ld' built Hc; simpl.
  - intros [= <- <- <-]. split; [done | apply not_elem_of_nil].
  - destruct (get ld q) as [r1 ld1 b1| | |] eqn:Hg; try discriminate.
    destruct (Hget _ _ _ _ _ Hc Hg) as [Hc1 Hb1].
    destruct (construct get (k r1) ld1) as [r2 ld2 b2| | |] eqn:Hk;
      try discriminate.
    intros [= <- <- <-].
    destruct (IH _ _ _ _ _ Hc1 Hk) as [Hc2 Hb2].
    split; [done|]. rewrite elem_of_app. tauto.
  - destruct (SetStorage ld q s) as [u ld1 b1| | |] eqn:Hs; try discriminate.
    destruct (SetStorage_cached _ _ _ _ _ _ _ Hc Hs) as [Hc1 ->].
    destruct (construct get k ld1) as [r2 ld2 b2| | |] eqn:Hk;
      try discriminate.
    intros [= <- <- <-].
    destruct (IH _ _ _ _ Hc1 Hk) as [Hc2 Hb2]. by split.
Qed.

Lemma cached_Lock ld ld' prefix :
  Lock ld = Some ld' -> lookupSto ld' prefix = lookupSto ld prefix /\ mu ld' = true
                        /\ conf ld' = conf ld.
Proof.
  unfold Lock. destruct (mu ld); [discriminate|]. by intros [= <-].
Qed.

(** Once a prefix has a backend in the cache, no call ever runs a
    constructor for it again, and it stays in the cache. *)
Lemma GetStorage_cached prefix fuel : forall ld q r ld' built,
  cached prefix ld ->
  GetStorage CreateStorage fuel ld q = Returns r ld' built ->
  cached prefix ld' /\ prefix ∉ built.
Proof.
  induction fuel as [|fuel IH]; intros ld q r ld' built Hc; simpl;
    [discriminate|].
  destruct (Lock ld) as [ld1|] eqn:Hl; [|discriminate].
  destruct (cached_Lock _ _ prefix Hl) as (Hsto & _ & _).
  assert (cached prefix ld1) as Hc1 by (unfold cached; by rewrite Hsto).
  destruct (lookupSto ld1 q) as [bs|] eqn:Hq.
  { intros [= <- <- <-]. split; [exact Hc1 | apply not_elem_of_nil]. }
  assert (q <> prefix) as Hne.
  { intros ->. destruct Hc1 as [x Hx]. congruence. }
  destruct (Prefixes (conf (makeSto ld1)) !! q) as [stoConf|].
  2:{ intros [= <- <- <-].
      split; [by apply cached_makeSto | apply not_elem_of_nil]. }
  destruct (construct _ _ _) as [[s|err] ld2 b2| | |] eqn:Hk; try discriminate.
  - destruct (construct_cached prefix _ IH _ _ _ _ _
                (cached_makeSto _ _ Hc1) Hk) as [Hc2 Hb2].
    destruct (assignSto ld2 q s) as [ld3|] eqn:Ha; [|discriminate].
    intros [= <- <- <-]. split.
    + exact (cached_assignSto _ _ _ _ _ Hc2 Ha).
    + rewrite not_elem_of_cons. split; [congruence | done].
  - destruct (construct_cached prefix _ IH _ _ _ _ _
                (cached_makeSto _ _ Hc1) Hk) as [Hc2 Hb2].
    intros [= <- <- <-]. split; [done|].
    rewrite not_elem_of_cons. split; [congruence | done].
Qed.


(** While the mutex is held, a constructor that returns has made no call
    back into [GetStorage] or [SetStorage]. *)
Lemma construct_held fuel c ld r ld' built :
  mu ld = true ->
  construct (GetStorage CreateStorage fuel) c ld = Returns r ld' built ->
  c = Return r /\ ld' = ld /\ built = [].
Proof.
  intros Hmu. destruct c as [r0|q k|q s k]; simpl.
  - by intros [= <- <- <-].
  - destruct fuel as [|fuel]; [discriminate|].
    by rewrite GetStorage_held.
  - by rewrite SetStorage_held.
Qed.

(** A call of [GetStorage] that returns a backend leaves it in the cache,
    leaves the mutex free, and has run at most the constructor of its own
    prefix. *)
Lemma GetStorage_returns_backend fuel ld prefix s ld' built :
  GetStorage CreateStorage fuel ld prefix = Returns (inl s) ld' built ->
  mu ld' = false /\ lookupSto ld' prefix = Some s
  /\ (built = [] \/ built = [prefix]).
Proof.
  destruct fuel as [|fuel]; simpl; [discriminate|].
  destruct (Lock ld) as [ld1|] eqn:Hl; [|discriminate].
  destruct (cached_Lock _ _ prefix Hl) as (Hsto & Hmu1 & _).
  destruct (lookupSto ld1 prefix) as [bs|] eqn:Hq.
  { intros [= <- <- <-]. repeat split; [exact Hq | by left]. }
  destruct (Prefixes (conf (makeSto ld1)) !! prefix) as [stoConf|];
    [|discriminate].
  destruct (construct _ _ _) as [[s'|err] ld2 b2| | |] eqn:Hk; try discriminate.
  apply construct_held in Hk as (_ & -> & ->).
  2:{ unfold makeSto. by destruct (sto ld1). }
  destruct (assignSto _ _ _) as [ld3|] eqn:Ha; [|discriminate].
  intros [= <- <- <-]. repeat split.
  - unfold Unlock, lookupSto. simpl. by eapply lookupSto_assignSto.
  - by right.
Qed.


(** A constructor that fails leaves nothing in the cache: the next call runs
    it again. *)
Lemma GetStorage_failure_not_cached fuel ld prefix err ld' built :
  lookupSto ld prefix = None ->
  GetStorage CreateStorage fuel ld prefix = Returns (inr err) ld' built ->
  lookupSto ld' prefix = None.
Proof.
  intros Hnone. destruct fuel as [|fuel]; simpl; [discriminate|].
  destruct (Lock ld) as [ld1|] eqn:Hl; [|discriminate].
  destruct (cached_Lock _ _ prefix Hl) as (Hsto & Hmu1 & _).
  rewrite Hsto, Hnone.
  destruct (Prefixes (conf (makeSto ld1)) !! prefix) as [stoConf|].
  2:{ intros [= <- <- <-]. unfold Unlock, lookupSto. simpl.
      fold (lookupSto (makeSto ld1) prefix).
      by rewrite lookupSto_makeSto, Hsto. }
  destruct (construct _ _ _) as [[s'|err'] ld2 b2| | |] eqn:Hk; try discriminate.
  { by destruct (assignSto _ _ _). }
  apply construct_held in Hk as (_ & -> & ->).
  2:{ unfold makeSto. by destruct (sto ld1). }
  intros [= <- <- <-]. unfold Unlock, lookupSto. simpl.
  fold (lookupSto (makeSto ld1) prefix).
  by rewrite lookupSto_makeSto, Hsto.
Qed.

(** The loader calls a constructor with its mutex held: a constructor that
    calls back into [GetStorage] from inside [GetStorage] blocks there. *)
Lemma nested_GetStorage_blocks fuel ld prefix stoConf q k :
  mu ld = false ->
  lookupSto ld prefix = None ->
  Prefixes (conf ld) !! prefix = Some stoConf ->
  CreateStorage (StorageHandler stoConf) (StorageHandlerArgs stoConf)
  = CallGetStorage q k ->
  GetStorage CreateStorage (S (S fuel)) ld prefix = Blocks.
Proof.
  intros Hmu Hnone Hconf Hctor.
  cbn [GetStorage]. rewrite Lock_unlocked by done.
  unfold lookupSto in *. simpl. rewrite Hnone.
  assert (conf (makeSto {| mu := true; sto := sto ld; conf := conf ld |})
          = conf ld) as -> by (unfold makeSto; simpl; by destruct (sto ld)).
  rewrite Hconf, Hctor. cbn [construct].
  rewrite Lock_held; [reflexivity|].
  unfold makeSto. simpl. by destruct (sto ld).
Qed.

End LoaderFacts.


(** The example installation of [main.go] loads and verifies: [main] builds
    the packed store itself, so its two sub-stores are resolved by calls of
    [GetStorage] that find the mutex free. *)
Example main_example fuel :
  main (Example.env Example.document) (S fuel) ["pk-verify"; "server-config.json"]
  = Exits [Stdout (" verified 1 blob..." +:+ cr);
           Stdout (" verified 2 blobs..." +:+ cr);
           Stdout ("verified all 2 blobs" +:+ nl)] 0.
Proof. vm_compute. reflexivity. Qed.

(** C2 fails on the code.  In the example installation, which is acyclic,
    [GetStorage] for the packed store runs the constructor with the mutex
    held; the constructor calls [GetStorage] for the loose store and that
    call blocks on the mutex for ever.  The same happens under [main] as soon
    as a sub-store is itself a packed store. *)
Theorem nested_GetStorage_deadlocks (fuel : nat) :
  GetStorage Example.CreateStorage (S (S fuel))
    (NewLoader (Example.configOf Example.document)) "/bs/" = Blocks
  /\ main (Example.env Example.documentNested) (S (S fuel))
       ["pk-verify"; "server-config.json"] = Hangs [].
Proof. split; vm_compute; reflexivity. Qed.

(** C9.  [FindHandlerByType] and [AllHandlers] panic on every call, whatever
    the loader holds; neither ever returns. *)
Theorem unsupported_operations_panic {Storage Handler : Type}
    (ld : Loader Storage) (handlerType : string) :
  @FindHandlerByType Storage Handler ld handlerType = Panics "NOIMPL"
  /\ @AllHandlers Storage Handler ld = Panics "NOIMPL"
  /\ (forall r ld' built,
        @FindHandlerByType Storage Handler ld handlerType <> Returns r ld' built)
  /\ (forall r ld' built,
        @AllHandlers Storage Handler ld <> Returns r ld' built).
Proof. repeat split; intros; discriminate. Qed.

(** C10.  [GetHandlerType] returns the empty string and [GetHandler] returns
    [nil] with an error for every prefix and every state of the loader; in
    particular for a prefix whose backend [SetStorage] has just stored, or
    [GetStorage] has just cached.  Both only write a line to the log. *)
Theorem handler_lookups_report_nothing {Storage Handler : Type}
    (CreateStorage : string -> Obj -> Construction Storage)
    (ld : Loader Storage) (prefix : string) (s : Storage) (fuel : nat) :
  snd (GetHandlerType ld prefix) = ""
  /\ snd (@GetHandler Storage Handler ld prefix)
     = (None, Some (errorString "doesn't exist"))
  /\ match SetStorage ld prefix s with
     | Returns _ ld' _ =>
         lookupSto ld' prefix = Some s
         /\ snd (GetHandlerType ld' prefix) = ""
         /\ snd (@GetHandler Storage Handler ld' prefix)
            = (None, Some (errorString "doesn't exist"))
     | _ => True
     end
  /\ match GetStorage CreateStorage fuel ld prefix with
     | Returns (inl s') ld' _ =>
         lookupSto ld' prefix = Some s'
         /\ snd (GetHandlerType ld' prefix) = ""
         /\ snd (@GetHandler Storage Handler ld' prefix)
            = (None, Some (errorString "doesn't exist"))
     | _ => True
     end.
Proof.
  split; [reflexivity|]. split; [reflexivity|]. split.
  - destruct (SetStorage ld prefix s) as [u ld' b| | |] eqn:Hs; try exact I.
    split; [|by split].
    destruct (mu ld) eqn:Hmu.
    + by rewrite SetStorage_held in Hs.
    + destruct (SetStorage_returns ld prefix s Hmu) as (ld'' & Hs' & _ & Hl).
      rewrite Hs in Hs'. by injection Hs' as -> ->.
  - destruct (GetStorage CreateStorage fuel ld prefix)
      as [[s'|err] ld' b| | |] eqn:Hg; try exact I.
    split; [|by split].
    by destruct (GetStorage_returns_backend _ _ _ _ _ _ _ Hg) as (_ & Hl & _).
Qed.

Example handler_lookups_after_SetStorage :
  match SetStorage (NewLoader (Example.configOf Example.document)) "/bs/" "a backend" with
  | Returns _ ld' _ =>
      lookupSto ld' "/bs/" = Some "a backend"
      /\ GetHandlerType ld' "/bs/"
         = ("test.Loader: GetHandlerType called but not implemented.", "")
  | _ => False
  end.
Proof. vm_compute. split; reflexivity. Qed.

(** ** The configuration parser *)

Lemma In_sort_insert x k l : In x (sort_insert k l) <-> x = k \/ In x l.
Proof.
  induction l as [|y l IH]; simpl.
  - intuition.
  - destruct (String.leb k y); simpl; [intuition|]. rewrite IH. intuition.
Qed.

Lemma In_sort_Strings x l : In x (sort_Strings l) <-> In x l.
Proof.
  unfold sort_Strings. induction l as [|y l IH]; simpl; [reflexivity|].
  rewrite In_sort_insert, IH. intuition.
Qed.


Lemma filter_none {A} (f : A -> bool) l :
  (forall x, In x l -> f x = false) -> List.filter f l = [].
Proof.
  induction l as [|x l IH]; simpl; intros H; [reflexivity|].
  rewrite (H x); [|by left]. apply IH. intros y Hy. apply H. by right.
Qed.

Lemma UnknownKeys_spec jc k :
  In k (UnknownKeys jc)
  <-> In k (map fst (members jc)) /\ (k ∉ knownkeys jc) /\ notComment k = true.
Proof.
  unfold UnknownKeys. rewrite In_sort_Strings, List.filter_In.
  rewrite andb_true_iff, negb_true_iff, bool_decide_eq_false.
  unfold notComment. tauto.
Qed.


(** The errors [Validate] adds are those of the unknown keys. *)
Lemma note_unknown_keys ks : forall jc,
  let jc' := fold_left (fun jc k => appendError jc (errUnknownKey k)) ks jc in
  members jc' = members jc /\ knownkeys jc' = knownkeys jc
  /\ errors jc' = errors jc ++ map errUnknownKey ks.
Proof.
  induction ks as [|k ks IH]; intros jc; simpl.
  - by rewrite app_nil_r.
  - destruct (IH (appendError jc (errUnknownKey k))) as (Hm & Hk & He).
    simpl in *. rewrite Hm, Hk, He. by rewrite <- app_assoc.
Qed.

Lemma Validate_verdict jc :
  snd (Validate jc) = verdict (errors jc ++ map errUnknownKey (UnknownKeys jc)).
Proof.
  unfold Validate.
  destruct (note_unknown_keys (UnknownKeys jc) jc) as (_ & _ & He).
  simpl in He. rewrite He.
  by destruct (errors jc ++ map errUnknownKey (UnknownKeys jc)) as [|e [|e' l]].
Qed.

Lemma In_remove k f m :
  In k (map fst (remove f m)) <-> In k (map fst m) /\ k <> f.
Proof.
  unfold remove. rewrite !in_map_iff. split.
  - intros ([k' v] & <- & Hin). apply List.filter_In in Hin as [Hin Hne].
    simpl in *. apply negb_true_iff, String.eqb_neq in Hne.
    split; [|done]. by exists (k', v).
  - intros (([k' v] & <- & Hin) & Hne). exists (k', v). split; [done|].
    apply List.filter_In. split; [done|].
    by apply negb_true_iff, String.eqb_neq.
Qed.

(** [deleteUnknownFields] keeps the members whose key was not unknown, and
    nothing else of the object changes. *)
Lemma delete_fields fs : forall obj,
  let obj' := fold_left (fun obj f =>
                           {| members := remove f (members obj);
                              knownkeys := knownkeys obj;
                              errors := errors obj |}) fs obj in
  knownkeys obj' = knownkeys obj /\ errors obj' = errors obj
  /\ (forall k, In k (map fst (members obj'))
                <-> In k (map fst (members obj)) /\ ~ In k fs).
Proof.
  induction fs as [|f fs IH]; intros obj; simpl.
  - repeat split; tauto.
  - destruct (IH {| members := remove f (members obj);
                    knownkeys := knownkeys obj;
                    errors := errors obj |}) as (Hk & He & Hm).
    simpl in *. split; [done|]. split; [done|].
    intros k. rewrite Hm, In_remove. intuition congruence.
Qed.

Lemma deleteUnknownFields_spec obj :
  knownkeys (deleteUnknownFields obj) = knownkeys obj
  /\ errors (deleteUnknownFields obj) = errors obj
  /\ UnknownKeys (deleteUnknownFields obj) = [].
Proof.
  destruct (delete_fields (UnknownKeys obj) obj) as (Hk & He & Hm).
  fold (deleteUnknownFields obj) in *.
  split; [done|]. split; [done|].
  destruct (UnknownKeys (deleteUnknownFields obj)) as [|k ks] eqn:Hu;
    [reflexivity|].
  assert (In k (UnknownKeys (deleteUnknownFields obj))) as Hin
    by (rewrite Hu; by left).
  apply UnknownKeys_spec in Hin as (Hin & Hnk & Hnc).
  apply Hm in Hin as [Hin Hnot]. destruct Hnot.
  apply UnknownKeys_spec. rewrite Hk in Hnk. done.
Qed.

(** After [deleteUnknownFields], [Validate] reports the errors the accessors
    noted and no unknown key. *)
Lemma Validate_deleteUnknownFields obj :
  snd (Validate (deleteUnknownFields obj)) = verdict (errors obj).
Proof.
  rewrite Validate_verdict.
  destruct (deleteUnknownFields_spec obj) as (_ & -> & ->).
  simpl. by rewrite app_nil_r.
Qed.

Lemma string_drop_app s t : string_drop (String.length s) (s +:+ t) = t.
Proof. induction s as [|c s IH]; simpl; [reflexivity | exact IH]. Qed.

Lemma prefix_app s t : String.prefix s (s +:+ t) = true.
Proof.
  induction s as [|c s IH]; simpl; [by destruct t|].
  destruct (ascii_dec c c); [exact IH | congruence].
Qed.

Lemma TrimPrefix_app s t : TrimPrefix (s +:+ t) s = t.
Proof.
  unfold TrimPrefix, HasPrefix. by rewrite prefix_app, string_drop_app.
Qed.

Lemma length_string_app s t :
  String.length (s +:+ t) = (String.length s + String.length t)%nat.
Proof.
  induction s as [|c s IH]; [reflexivity|].
  change (S (String.length (s +:+ t)) = S (String.length s + String.length t)).
  by rewrite IH.
Qed.

Lemma TrimPrefix_storage_differs name :
  String.eqb (TrimPrefix ("storage-" +:+ name) "storage-") ("storage-" +:+ name)
  = false.
Proof.
  rewrite TrimPrefix_app. apply String.eqb_neq. intros Heq.
  apply (f_equal String.length) in Heq.
  rewrite length_string_app in Heq. simpl in Heq. lia.
Qed.

Lemma get_noteKnownKey jc key k :
  get k (members (noteKnownKey jc key)) = get k (members jc).
Proof. reflexivity. Qed.

Lemma RequiredObject_fst jc key :
  members (fst (RequiredObject jc key)) = members jc
  /\ knownkeys (fst (RequiredObject jc key)) = {[ key ]} ∪ knownkeys jc.
Proof.
  unfold RequiredObject. simpl.
  by destruct (get key (members jc)) as [[]|].
Qed.



(** One turn of the loop changes neither the members of [prefixes] nor the
    result at another prefix, and its error names the prefix. *)
Lemma visitPrefix_inl prefixes prefix result prefixes' result' :
  visitPrefix prefixes prefix result = inl (prefixes', result') ->
  members prefixes' = members prefixes
  /\ (forall k, k <> prefix -> result' !! k = result !! k).
Proof.
  unfold visitPrefix.
  destruct (RequiredObject_fst prefixes prefix) as [Hm _].
  destruct (RequiredObject prefixes prefix) as [prefixes1 handler].
  destruct (RequiredString handler "handler") as [handler1 name].
  destruct (negb (String.eqb (TrimPrefix name "storage-") name)).
  - destruct (RequiredObject handler1 "handlerArgs") as [handler2 args].
    destruct (Validate handler2) as [jc [err|]]; [discriminate|].
    intros [= <- <-]. split; [exact Hm|].
    intros k Hk. by rewrite lookup_insert_ne.
  - destruct (Validate (deleteUnknownFields handler1)) as [jc [err|]];
      [discriminate|].
    intros [= <- <-]. by split.
Qed.

Lemma visitPrefix_inr prefixes prefix result err :
  visitPrefix prefixes prefix result = inr err ->
  exists e, err = errInPrefix prefix e.
Proof.
  unfold visitPrefix.
  destruct (RequiredObject prefixes prefix) as [prefixes1 handler].
  destruct (RequiredString handler "handler") as [handler1 name].
  destruct (negb (String.eqb (TrimPrefix name "storage-") name)).
  - destruct (RequiredObject handler1 "handlerArgs") as [handler2 args].
    destruct (Validate handler2) as [jc [e|]]; [|discriminate].
    intros [= <-]. by eexists.
  - destruct (Validate (deleteUnknownFields handler1)) as [jc [e|]];
      [|discriminate].
    intros [= <-]. by eexists.
Qed.




(** [parseLowLevelConfig] with the two calls of [Validate] read through
    their verdicts: the top-level document is judged on the errors of its
    accessors alone, its unknown fields having been deleted. *)
Lemma parseLowLevelConfig_unfold obj :
  parseLowLevelConfig obj
  = match rangePrefixes (map fst (members (snd (RequiredObject obj "prefixes"))))
                        (snd (RequiredObject obj "prefixes")) ∅ with
    | inr err => inr err
    | inl (prefixes, result) =>
        match verdict (errors (fst (RequiredObject obj "prefixes"))) with
        | Some err => inr err
        | None =>
            match snd (Validate prefixes) with
            | Some err => inr (errInPrefixesMap err)
            | None => inl {| Prefixes := result |}
            end
        end
    end.
Proof.
  unfold parseLowLevelConfig.
  destruct (RequiredObject obj "prefixes") as [obj1 prefixes]. simpl.
  destruct (rangePrefixes _ _ _) as [[prefixes' result]|err]; [|reflexivity].
  rewrite <- Validate_deleteUnknownFields.
  destruct (Validate (deleteUnknownFields obj1)) as [jc [err|]]; simpl;
    [reflexivity|].
  by destruct (Validate prefixes') as [jc' [err|]].
Qed.

(** The parser looks at nothing of the top-level document but the member
    [prefixes]. *)
Lemma parseLowLevelConfig_top_level doc doc' :
  get "prefixes" doc = get "prefixes" doc' ->
  parseLowLevelConfig (fresh doc) = parseLowLevelConfig (fresh doc').
Proof.
  intros Hget. rewrite !parseLowLevelConfig_unfold.
  unfold RequiredObject. rewrite !get_noteKnownKey. simpl members.
  rewrite <- Hget. by destruct (get "prefixes" doc) as [[]|].
Qed.

Lemma get_Some_In k m v : get k m = Some v -> In k (map fst m).
Proof.
  induction m as [|[k' v'] m IH]; simpl; [discriminate|].
  destruct (String.eqb_spec k' k) as [->|Hne]; [by left|].
  intros Hget. right. by apply IH.
Qed.





Lemma sameButComments_refl jc : sameButComments jc jc.
Proof. by repeat split. Qed.









Example comment_prefix_with_malformed_value :
  exists c,
    parseLowLevelConfig
      (fresh [("prefixes",
               JObject [("/bs/", Example.jsonFilesystem "/srv/blobs");
                        ("_example", JNumber "42")])]) = inl c
    /\ Prefixes c !! "_example" = None
    /\ StorageHandler <$> (Prefixes c !! "/bs/") = Some "filesystem".
Proof. eexists. repeat split; vm_compute; reflexivity. Qed.

(** ** More on the configuration parser *)

Lemma HasPrefix_split p : forall s,
  HasPrefix s p = true -> s = p +:+ string_drop (String.length p) s.
Proof.
  unfold HasPrefix. induction p as [|c p IH]; intros s.
  - reflexivity.
  - destruct s as [|d s]; simpl; [discriminate|].
    destruct (ascii_dec c d) as [->|]; [|discriminate].
    intros Hp. change (String d s = String d (p +:+ string_drop (String.length p) s)).
    f_equal. by apply IH.
Qed.

Lemma TrimPrefix_restore s p : HasPrefix s p = true -> p +:+ TrimPrefix s p = s.
Proof.
  intros Hp. unfold TrimPrefix. rewrite Hp. symmetry. by apply HasPrefix_split.
Qed.

Lemma TrimPrefix_eqb name :
  String.eqb (TrimPrefix name "storage-") name = negb (HasPrefix name "storage-").
Proof.
  destruct (HasPrefix name "storage-") eqn:Hp.
  - apply HasPrefix_split in Hp.
    remember (string_drop (String.length "storage-") name) as rest eqn:Hrest.
    clear Hrest. subst name. by rewrite TrimPrefix_storage_differs.
  - unfold TrimPrefix. rewrite Hp. apply String.eqb_refl.
Qed.

Lemma get_singleton k (v : JSON) : get k [(k, v)] = Some v.
Proof. simpl. by rewrite String.eqb_refl. Qed.

Lemma RequiredObject_get jc key :
  RequiredObject jc key
  = match get key (members jc) with
    | Some (JObject m) => (noteKnownKey jc key, fresh m)
    | None => (appendError (noteKnownKey jc key) (errMissingKey key "object"), empty)
    | Some _ => (appendError (noteKnownKey jc key) (errExpectedObject key), empty)
    end.
Proof. unfold RequiredObject. rewrite get_noteKnownKey. by destruct (get key (members jc)) as [[]|]. Qed.

Lemma RequiredString_get jc key :
  RequiredString jc key
  = match get key (members jc) with
    | Some (JString s) => (noteKnownKey jc key, s)
    | None => (appendError (noteKnownKey jc key) (errMissingKey key "string"), "")
    | Some _ => (appendError (noteKnownKey jc key) (errExpectedString key), "")
    end.
Proof. unfold RequiredString. rewrite get_noteKnownKey. by destruct (get key (members jc)) as [[]|]. Qed.

(** One turn of the loop depends on [prefixes] through the value bound to
    the prefix alone, and marks the prefix as known. *)
Lemma visitPrefix_entry prefixes prefix result :
  visitPrefix prefixes prefix result
  = match entry prefix (get prefix (members prefixes)) with
    | inr err => inr err
    | inl None => inl (noteKnownKey prefixes prefix, result)
    | inl (Some sc) => inl (noteKnownKey prefixes prefix, <[prefix := sc]> result)
    end.
Proof.
  unfold entry, visitPrefix.
  rewrite (RequiredObject_get prefixes prefix).
  destruct (get prefix (members prefixes)) as [v|]; [|reflexivity].
  rewrite (RequiredObject_get (fresh [(prefix, v)]) prefix).
  simpl members. rewrite get_singleton.
  destruct v as [|b|n|s|l|h]; try reflexivity.
  destruct (RequiredString (fresh h) "handler") as [handler1 name].
  destruct (negb (String.eqb (TrimPrefix name "storage-") name)).
  - destruct (RequiredObject handler1 "handlerArgs") as [handler2 args].
    destruct (Validate handler2) as [jc [err|]]; [reflexivity|].
    by rewrite lookup_insert_eq.
  - by destruct (Validate (deleteUnknownFields handler1)) as [jc [err|]].
Qed.

(** The turn of the loop for a value that is not an object: the empty
    object that stands for it lacks [handler]. *)
Lemma entry_not_object prefix v :
  (forall h, v <> Some (JObject h)) ->
  entry prefix v = inr (errInPrefix prefix (errMissingKey "handler" "string")).
Proof.
  intros Hv. unfold entry, visitPrefix.
  rewrite RequiredObject_get. destruct v as [v|]; simpl members.
  - rewrite get_singleton.
    destruct v as [|b|n|s|l|h]; try reflexivity. by destruct (Hv h).
  - reflexivity.
Qed.

(** The turn of the loop for an object, with [Validate] read through its
    verdict. *)
Lemma entry_object prefix h :
  entry prefix (Some (JObject h))
  = (let '(handler1, name) := RequiredString (fresh h) "handler" in
     if HasPrefix name "storage-" then
       let '(handler2, args) := RequiredObject handler1 "handlerArgs" in
       match verdict (errors handler2
                      ++ map errUnknownKey (UnknownKeys handler2)) with
       | Some err => inr (errInPrefix prefix err)
       | None => inl (Some {| StorageHandler := TrimPrefix name "storage-";
                              StorageHandlerArgs := args |})
       end
     else
       match verdict (errors handler1) with
       | Some err => inr (errInPrefix prefix err)
       | None => inl None
       end).
Proof.
  unfold entry, visitPrefix.
  rewrite (RequiredObject_get (fresh [(prefix, JObject h)]) prefix).
  simpl members. rewrite get_singleton.
  destruct (RequiredString (fresh h) "handler") as [handler1 name].
  rewrite TrimPrefix_eqb, negb_involutive.
  destruct (HasPrefix name "storage-").
  - destruct (RequiredObject handler1 "handlerArgs") as [handler2 args].
    pose proof (Validate_verdict handler2) as Hv.
    destruct (Validate handler2) as [jc v]. simpl in Hv. subst v.
    destruct (verdict _) as [err|]; [reflexivity|].
    by rewrite lookup_insert_eq.
  - pose proof (Validate_deleteUnknownFields handler1) as Hv.
    destruct (Validate (deleteUnknownFields handler1)) as [jc v].
    simpl in Hv. subst v. by destruct (verdict _).
Qed.

Lemma verdict_None errs : verdict errs = None <-> errs = [].
Proof. by destruct errs as [|e [|e' errs]]. Qed.

Lemma UnknownKeys_nil jc :
  UnknownKeys jc = []
  <-> forall k, In k (map fst (members jc)) ->
                k ∈ knownkeys jc \/ notComment k = false.
Proof.
  split.
  - intros Hnil k Hin.
    destruct (decide (k ∈ knownkeys jc)) as [|Hk]; [by left|]. right.
    destruct (notComment k) eqn:Hc; [|reflexivity].
    assert (In k (UnknownKeys jc)) as Hu by (by apply UnknownKeys_spec).
    rewrite Hnil in Hu. destruct Hu.
  - intros Hall. destruct (UnknownKeys jc) as [|k ks] eqn:Hu; [reflexivity|].
    assert (In k (UnknownKeys jc)) as Hin by (rewrite Hu; by left).
    apply UnknownKeys_spec in Hin as (Hin & Hk & Hc).
    destruct (Hall k Hin) as [?|?]; [done | congruence].
Qed.

(** An entry is recorded exactly when it is an object with a handler
    [storage-<name>], an object [handlerArgs] and no other field than
    comments; the name and the arguments are what is recorded. *)
Lemma entry_Some prefix v sc :
  entry prefix v = inl (Some sc)
  <-> exists h args,
        v = Some (JObject h)
        /\ get "handler" h = Some (JString ("storage-" +:+ StorageHandler sc))
        /\ get "handlerArgs" h = Some (JObject args)
        /\ StorageHandlerArgs sc = fresh args
        /\ forall f, In f (map fst h) -> storageField f.
Proof.
  split.
  - destruct v as [[|b|n|s|l|h]|];
      try (rewrite entry_not_object by (intros h' [=]); discriminate).
    rewrite entry_object, RequiredString_get. simpl members.
    destruct (get "handler" h) as [[|b|n|name|l|o]|] eqn:Hh;
      try (simpl; discriminate).
    destruct (HasPrefix name "storage-") eqn:Hp; [|simpl; discriminate].
    rewrite RequiredObject_get. simpl members.
    destruct (get "handlerArgs" h) as [[|b|n|s|l|args]|] eqn:Ha;
      try (by destruct (UnknownKeys _)).
    simpl errors. simpl app.
    destruct (verdict _) as [err|] eqn:Hv; [discriminate|].
    intros [= <-]. simpl. exists h, args.
    split; [reflexivity|]. split; [by rewrite TrimPrefix_restore|].
    split; [exact Ha|]. split; [reflexivity|].
    apply verdict_None, map_eq_nil in Hv.
    intros f Hf. destruct (proj1 (UnknownKeys_nil _) Hv f Hf) as [Hk|Hc].
    + simpl in Hk. unfold storageField.
      rewrite !elem_of_union, !elem_of_singleton, elem_of_empty in Hk. tauto.
    + by right; right.
  - intros (h & args & -> & Hh & Ha & Hargs & Hf).
    rewrite entry_object, RequiredString_get. simpl members. rewrite Hh.
    unfold HasPrefix. rewrite prefix_app.
    rewrite RequiredObject_get. simpl members. rewrite Ha. simpl errors.
    assert (UnknownKeys (noteKnownKey (noteKnownKey (fresh h) "handler")
                                      "handlerArgs") = []) as ->.
    { apply UnknownKeys_nil. intros f Hin. simpl.
      destruct (Hf f Hin) as [->|[->|Hc]]; [left|left|by right];
        rewrite !elem_of_union, !elem_of_singleton; tauto. }
    simpl. rewrite TrimPrefix_app. destruct sc as [n a]. simpl in *.
    by subst a.
Qed.

(** An entry passes without being recorded exactly when it is an object
    whose handler is a string that does not start with [storage-]; its
    other fields do not matter. *)
Lemma entry_None prefix v :
  entry prefix v = inl None
  <-> exists h name,
        v = Some (JObject h)
        /\ get "handler" h = Some (JString name)
        /\ HasPrefix name "storage-" = false.
Proof.
  split.
  - destruct v as [[|b|n|s|l|h]|];
      try (rewrite entry_not_object by (intros h' [=]); discriminate).
    rewrite entry_object, RequiredString_get. simpl members.
    destruct (get "handler" h) as [[|b|n|name|l|o]|] eqn:Hh;
      try (simpl; discriminate).
    destruct (HasPrefix name "storage-") eqn:Hp.
    + destruct (RequiredObject _ _) as [handler2 args].
      by destruct (verdict _).
    + intros _. by exists h, name.
  - intros (h & name & -> & Hh & Hp).
    rewrite entry_object, RequiredString_get. simpl members.
    by rewrite Hh, Hp.
Qed.

Lemma entry_acceptable prefix v :
  (exists o, entry prefix v = inl o) <-> acceptable v.
Proof.
  split.
  - intros [[sc|] He].
    + apply entry_Some in He as (h & args & -> & Hh & Ha & _ & Hf).
      exists h, ("storage-" +:+ StorageHandler sc).
      split; [done|]. split; [done|]. intros _. split; [by exists args | done].
    + apply entry_None in He as (h & name & -> & Hh & Hp).
      exists h, name. split; [done|]. split; [done|]. congruence.
  - intros (h & name & -> & Hh & Hs).
    destruct (HasPrefix name "storage-") eqn:Hp.
    + destruct (Hs eq_refl) as [[args Ha] Hf].
      exists (Some {| StorageHandler := TrimPrefix name "storage-";
                      StorageHandlerArgs := fresh args |}).
      apply entry_Some. exists h, args. simpl.
      rewrite TrimPrefix_restore by done. by repeat split.
    + exists None. apply entry_None. by exists h, name.
Qed.

Lemma resultAt_skip m p keys result q :
  notComment p = false ->
  resultAt m (p :: keys) result q = resultAt m keys result q.
Proof.
  intros Hp. unfold resultAt.
  destruct (decide (q = p)) as [->|Hne].
  - rewrite Hp, !andb_false_r. reflexivity.
  - assert (bool_decide (q ∈ p :: keys) = bool_decide (q ∈ keys)) as ->;
      [|reflexivity].
    apply bool_decide_ext. rewrite elem_of_cons. tauto.
Qed.

Lemma resultAt_cons m p keys result q :
  notComment p = true ->
  resultAt m (p :: keys) result q
  = resultAt m keys
      (match entry p (get p m) with
       | inl (Some sc) => <[p := sc]> result
       | _ => result
       end) q.
Proof.
  intros Hp. unfold resultAt.
  destruct (decide (q = p)) as [->|Hne].
  - rewrite bool_decide_eq_true_2 by (by left). rewrite Hp. simpl.
    destruct (entry p (get p m)) as [[sc|]|e];
      try by destruct (bool_decide (p ∈ keys)).
    destruct (bool_decide (p ∈ keys)); simpl; by rewrite ?lookup_insert_eq.
  - assert (bool_decide (q ∈ p :: keys) = bool_decide (q ∈ keys)) as ->.
    { apply bool_decide_ext. rewrite elem_of_cons. tauto. }
    destruct (entry p (get p m)) as [[sc|]|e]; try reflexivity.
    by rewrite lookup_insert_ne.
Qed.

(** What the loop has done when it ends without an error: every entry it
    visited was acceptable, the keys visited are known, no error was noted,
    and the result is the one read off the entries. *)
Lemma rangePrefixes_success keys : forall prefixes result prefixes' result',
  rangePrefixes keys prefixes result = inl (prefixes', result') ->
  members prefixes' = members prefixes
  /\ errors prefixes' = errors prefixes
  /\ (forall k, k ∈ knownkeys prefixes'
                <-> k ∈ knownkeys prefixes \/ (In k keys /\ notComment k = true))
  /\ (forall q, In q keys -> notComment q = true ->
                acceptable (get q (members prefixes)))
  /\ (forall q, result' !! q = resultAt (members prefixes) keys result q).
Proof.
  induction keys as [|p keys IH]; intros P r P' r'; simpl.
  - intros [= <- <-]. repeat split; tauto.
  - unfold notComment in *. destruct (HasPrefix p "_") eqn:Hc.
    + intros Hloop. destruct (IH _ _ _ _ Hloop) as (Hm & He & Hk & Ha & Hr).
      split; [done|]. split; [done|]. split; [|split].
      * intros k. rewrite Hk. split; [tauto|].
        intros [?|[[->|?] Hn]]; [tauto| |tauto].
        rewrite Hc in Hn. discriminate.
      * intros q [->|Hq] Hn; [rewrite Hc in Hn; discriminate | by apply Ha].
      * intros q. rewrite Hr. symmetry. apply resultAt_skip.
        unfold notComment. by rewrite Hc.
    + rewrite visitPrefix_entry.
      assert (notComment p = true) as Hp by (unfold notComment; by rewrite Hc).
      pose proof (resultAt_cons (members P) p keys r) as Hcons.
      destruct (entry p (get p (members P))) as [o|e] eqn:He; [|discriminate].
      assert (acceptable (get p (members P))) as Hacc
        by (apply (entry_acceptable p); by exists o).
      assert (forall P1 r1,
                members P1 = members P -> errors P1 = errors P ->
                knownkeys P1 = {[ p ]} ∪ knownkeys P ->
                (forall q, resultAt (members P) (p :: keys) r q
                           = resultAt (members P) keys r1 q) ->
                rangePrefixes keys P1 r1 = inl (P', r') ->
                members P' = members P /\ errors P' = errors P
                /\ (forall k, k ∈ knownkeys P'
                      <-> k ∈ knownkeys P
                          \/ ((p = k \/ In k keys) /\ negb (HasPrefix k "_") = true))
                /\ (forall q, p = q \/ In q keys -> negb (HasPrefix q "_") = true ->
                      acceptable (get q (members P)))
                /\ (forall q, r' !! q = resultAt (members P) (p :: keys) r q))
        as Hstep.
      { intros P1 r1 Hm1 He1 Hk1 Hr1 Hloop.
        destruct (IH _ _ _ _ Hloop) as (Hm & Herr & Hk & Ha & Hr).
        split; [congruence|]. split; [congruence|]. split; [|split].
        - intros k. rewrite Hk, Hk1, elem_of_union, elem_of_singleton.
          split.
          + intros [[->|?]|[? ?]]; [right; split; [by left|]|tauto|tauto].
            by rewrite Hc.
          + intros [?|[[<-|?] ?]]; tauto.
        - intros q [<-|Hq] Hn; [exact Hacc|]. rewrite <- Hm1. by apply Ha.
        - intros q. rewrite Hr, Hm1. symmetry. apply Hr1. }
      destruct o as [sc|]; intros Hloop;
        eapply Hstep; try exact Hloop; try reflexivity;
        intros q; by rewrite Hcons.
Qed.


(** After a loop without error over all the keys of a decoded object, the
    last [Validate] of [parseLowLevelConfig] finds nothing to report. *)
Lemma Validate_after_loop ps prefixes' result result' :
  rangePrefixes (map fst ps) (fresh ps) result = inl (prefixes', result') ->
  snd (Validate prefixes') = None.
Proof.
  intros Hloop.
  destruct (rangePrefixes_success _ _ _ _ _ Hloop) as (Hm & He & Hk & _ & _).
  rewrite Validate_verdict, He. simpl.
  apply verdict_None.
  replace (UnknownKeys prefixes') with (@nil string); [reflexivity|].
  symmetry. apply UnknownKeys_nil. intros k Hin. rewrite Hm in Hin. simpl in Hin.
  destruct (notComment k) eqn:Hc; [left | by right].
  apply Hk. right. by split.
Qed.

(** What [parseLowLevelConfig] returns for a decoded document whose
    [prefixes] is the object [ps]. *)
Lemma parseLowLevelConfig_prefixes rest ps :
  parseLowLevelConfig (fresh (("prefixes", JObject ps) :: rest))
  = match rangePrefixes (map fst ps) (fresh ps) ∅ with
    | inr err => inr err
    | inl (_, result) => inl {| Prefixes := result |}
    end.
Proof.
  rewrite parseLowLevelConfig_unfold. unfold RequiredObject. simpl.
  destruct (rangePrefixes (map fst ps) (fresh ps) ∅) as [[P' r']|err] eqn:Hloop;
    [|reflexivity].
  by rewrite (Validate_after_loop _ _ _ _ Hloop).
Qed.

(** Every error of the loop is the error of the turn for an entry it
    visited. *)
Lemma rangePrefixes_error keys : forall prefixes result err,
  rangePrefixes keys prefixes result = inr err ->
  exists q, In q keys /\ notComment q = true
            /\ entry q (get q (members prefixes)) = inr err.
Proof.
  induction keys as [|p keys IH]; intros P r err; simpl; [discriminate|].
  destruct (HasPrefix p "_") eqn:Hc.
  - intros Hloop. apply IH in Hloop as (q & Hq & Hn & He).
    exists q. by repeat split; [right|..].
  - destruct (visitPrefix P p r) as [[P1 r1]|err1] eqn:Hv.
    + destruct (visitPrefix_inl _ _ _ _ _ Hv) as [Hm _].
      intros Hloop. apply IH in Hloop as (q & Hq & Hn & He).
      exists q. rewrite Hm in He. by repeat split; [right|..].
    + intros [= <-]. rewrite visitPrefix_entry in Hv. exists p.
      split; [by left|]. split; [unfold notComment; by rewrite Hc|].
      destruct (entry p (get p (members P))) as [[sc|]|e]; congruence.
Qed.



Lemma parseLowLevelConfig_no_prefixes doc :
  (get "prefixes" doc = None ->
   parseLowLevelConfig (fresh doc) = inr (errMissingKey "prefixes" "object"))
  /\ (forall v, get "prefixes" doc = Some v -> (forall ps, v <> JObject ps) ->
       parseLowLevelConfig (fresh doc) = inr (errExpectedObject "prefixes")).
Proof.
  split.
  - intros Hget. rewrite parseLowLevelConfig_unfold, RequiredObject_get.
    simpl members. by rewrite Hget.
  - intros v Hget Hv. rewrite parseLowLevelConfig_unfold, RequiredObject_get.
    simpl members. rewrite Hget.
    destruct v as [|b|n|s|l|ps]; try reflexivity. by destruct (Hv ps).
Qed.




(** X4.  What the result holds.  When the translation succeeds, the result
    maps [q] to a configuration exactly when [q] is not a comment and the
    entry at [q] is an object with the handler [storage-<name>] and an object
    [handlerArgs]: the configuration is the name and these arguments. *)
Theorem parseLowLevelConfig_result (rest ps : list (string * JSON))
    (c : LowLevelConfig) :
  parseLowLevelConfig (fresh (("prefixes", JObject ps) :: rest)) = inl c ->
  forall q sc,
    Prefixes c !! q = Some sc
    <-> HasPrefix q "_" = false
        /\ exists h args,
             get q ps = Some (JObject h)
             /\ get "handler" h = Some (JString ("storage-" +:+ StorageHandler sc))
             /\ get "handlerArgs" h = Some (JObject args)
             /\ StorageHandlerArgs sc = fresh args.
Proof.
  rewrite parseLowLevelConfig_prefixes.
  destruct (rangePrefixes (map fst ps) (fresh ps) ∅) as [[P' r']|err] eqn:Hloop;
    [|discriminate].
  intros [= <-] q sc. simpl.
  destruct (rangePrefixes_success _ _ _ _ _ Hloop) as (_ & _ & _ & Ha & Hr).
  rewrite Hr. unfold resultAt. simpl members. rewrite lookup_empty.
  destruct (bool_decide_reflect (q ∈ map fst ps)) as [Hin|Hin]; simpl.
  - unfold notComment. destruct (HasPrefix q "_") eqn:Hc; simpl.
    + split; [discriminate | by intros [? _]].
    + split.
      * destruct (entry q (get q ps)) as [[sc'|]|e] eqn:He; try discriminate.
        intros [= ->]. split; [done|].
        apply entry_Some in He as (h & args & ? & ? & ? & ? & _).
        by exists h, args.
      * intros [_ (h & args & Hq & Hh & Hargs & Hsc)].
        assert (entry q (get q ps) = inl (Some sc)) as ->; [|done].
        apply entry_Some. exists h, args. repeat split; try done.
        apply list_elem_of_In in Hin.
        assert (notComment q = true) as Hn by (unfold notComment; by rewrite Hc).
        destruct (Ha q Hin Hn) as (h' & name & Hq' & Hh' & Hs).
        simpl in Hq'. rewrite Hq in Hq'. injection Hq' as <-.
        rewrite Hh in Hh'. injection Hh' as <-.
        apply Hs. unfold HasPrefix. apply prefix_app.
  - split; [discriminate|]. intros [_ (h & args & Hq & _)].
    destruct Hin. apply list_elem_of_In. by eapply get_Some_In.
Qed.

Lemma parseLowLevelConfig_result_witness :
  Prefixes (Example.configOf Example.document) !! "/bs-loose/"
  = Some {| StorageHandler := "filesystem";
            StorageHandlerArgs := fresh [("path", JString "/Users/jeremy/pk/blobs")] |}.
Proof.
  apply (parseLowLevelConfig_result []
           [("/bs-loose/", Example.jsonFilesystem "/Users/jeremy/pk/blobs");
            ("/bs-packed/", Example.jsonFilesystem "/Users/jeremy/pk/blobs/packed");
            ("/bs/", Example.jsonBlobpacked "/bs-loose/" "/bs-packed/")]
           (Example.configOf Example.document)).
  - vm_compute. reflexivity.
  - split; [reflexivity|].
    exists [("handler", JString "storage-filesystem");
            ("handlerArgs", JObject [("path", JString "/Users/jeremy/pk/blobs")])],
           [("path", JString "/Users/jeremy/pk/blobs")].
    repeat split.
Defined.











Lemma entry_inr prefix v err :
  entry prefix v = inr err -> exists e, err = errInPrefix prefix e.
Proof.
  unfold entry.
  destruct (visitPrefix _ prefix ∅) as [[P r]|e] eqn:Hv; [discriminate|].
  intros [= <-]. by eapply visitPrefix_inr.
Qed.

(** X7.  Every rejection names its cause.  An error of
    [parseLowLevelConfig] is the error for a missing [prefixes], or the one
    for a [prefixes] that is not an object, or an error "In prefixes[q]"
    for a key [q] of [prefixes] that is not a comment and whose entry is not
    acceptable.  The error "In the prefixes map" is never returned. *)
Theorem rejection_names_its_cause (doc : list (string * JSON)) (err : error) :
  parseLowLevelConfig (fresh doc) = inr err ->
  ((get "prefixes" doc = None /\ err = errMissingKey "prefixes" "object")
   \/ (exists v, get "prefixes" doc = Some v /\ (forall ps, v <> JObject ps)
                 /\ err = errExpectedObject "prefixes")
   \/ (exists ps q e,
         get "prefixes" doc = Some (JObject ps)
         /\ err = errInPrefix q e
         /\ In q (map fst ps) /\ HasPrefix q "_" = false
         /\ ~ acceptable (get q ps)))
  /\ (forall e, err <> errInPrefixesMap e).
Proof.
  intros Hparse.
  assert ((get "prefixes" doc = None /\ err = errMissingKey "prefixes" "object")
   \/ (exists v, get "prefixes" doc = Some v /\ (forall ps, v <> JObject ps)
                 /\ err = errExpectedObject "prefixes")
   \/ (exists ps q e,
         get "prefixes" doc = Some (JObject ps)
         /\ err = errInPrefix q e
         /\ In q (map fst ps) /\ HasPrefix q "_" = false
         /\ ~ acceptable (get q ps))) as Hcases.
  { destruct (parseLowLevelConfig_no_prefixes doc) as [Hmissing Hwrong].
    destruct (get "prefixes" doc) as [v|] eqn:Hget.
    2:{ left. split; [done|]. rewrite Hmissing in Hparse by done. congruence. }
    right.
    assert ((forall ps, v <> JObject ps) \/ exists ps, v = JObject ps) as [Hv|[ps ->]].
    { destruct v; (by right; eexists) || (left; intros ps; discriminate). }
    { left. exists v. rewrite (Hwrong v) in Hparse by done.
      repeat split; [done | congruence]. }
    right.
    rewrite (parseLowLevelConfig_top_level doc (("prefixes", JObject ps) :: doc))
      in Hparse by (simpl; done).
    rewrite parseLowLevelConfig_prefixes in Hparse.
    destruct (rangePrefixes (map fst ps) (fresh ps) ∅) as [[P r]|e] eqn:Hloop;
      [discriminate|].
    injection Hparse as ->.
    apply rangePrefixes_error in Hloop as (q & Hq & Hn & He). simpl in He.
    destruct (entry_inr _ _ _ He) as [e ->].
    exists ps, q, e. repeat split; try done.
    - unfold notComment in Hn. by apply negb_true_iff in Hn.
    - intros Hacc. apply (entry_acceptable q) in Hacc as [o Ho]. congruence. }
  split; [exact Hcases|].
  intros e ->.
  destruct Hcases as [[_ H]|[(v & _ & _ & H)|(ps & q & e' & _ & H & _)]];
    discriminate.
Qed.

Lemma rejection_names_its_cause_witness :
  exists ps q e,
    get "prefixes" [("prefixes", JObject [("/bs/", JString "filesystem")])]
    = Some (JObject ps)
    /\ errInPrefix "/bs/" (errMissingKey "handler" "string") = errInPrefix q e
    /\ In q (map fst ps) /\ HasPrefix q "_" = false
    /\ ~ acceptable (get q ps).
Proof.
  destruct (rejection_names_its_cause
              [("prefixes", JObject [("/bs/", JString "filesystem")])]
              (errInPrefix "/bs/" (errMissingKey "handler" "string")))
    as [[[_ H]|[(v & _ & _ & H)|H]] _].
  - vm_compute. reflexivity.
  - discriminate H.
  - discriminate H.
  - exact H.
Defined.








(** ** More on the loader *)

Section LoaderMore.

Context {Storage : Type}.
Variable CreateStorage : string -> Obj -> Construction Storage.

Implicit Types (ld : Loader Storage) (prefix : string) (s : Storage).

Lemma lookupSto_assignSto_other ld ld' prefix q s :
  assignSto ld prefix s = Some ld' -> q <> prefix ->
  lookupSto ld' q = lookupSto ld q.
Proof.
  unfold assignSto, lookupSto. destruct (sto ld) as [m|]; [|discriminate].
  intros [= <-] Hne. simpl. by rewrite lookup_insert_ne.
Qed.

Lemma assignSto_makeSto ld prefix s :
  exists ld', assignSto (makeSto ld) prefix s = Some ld'
              /\ mu ld' = mu ld /\ conf ld' = conf ld.
Proof.
  unfold assignSto, makeSto. destruct ld as [m [g|] c]; simpl; by eexists.
Qed.

Lemma assignSto_fields ld ld' prefix s :
  assignSto ld prefix s = Some ld' -> mu ld' = mu ld /\ conf ld' = conf ld.
Proof.
  unfold assignSto. destruct (sto ld); [|discriminate]. by intros [= <-].
Qed.

Lemma makeSto_fields ld : mu (makeSto ld) = mu ld /\ conf (makeSto ld) = conf ld.
Proof. unfold makeSto. by destruct (sto ld). Qed.

(** What a call of [GetStorage] that returns has done: it found the mutex
    free and left it free, it kept the configuration, and it ran at most the
    constructor of its own prefix, which was configured and not cached. *)
Lemma GetStorage_returns_inv fuel ld prefix r ld' built :
  GetStorage CreateStorage fuel ld prefix = Returns r ld' built ->
  mu ld = false /\ mu ld' = false /\ conf ld' = conf ld
  /\ (built = []
      \/ (built = [prefix] /\ lookupSto ld prefix = None
          /\ is_Some (Prefixes (conf ld) !! prefix))).
Proof.
  destruct fuel as [|fuel]; simpl; [discriminate|].
  destruct (Lock ld) as [ld1|] eqn:Hl; [|discriminate].
  destruct (cached_Lock _ _ prefix Hl) as (Hsto & Hmu1 & Hconf1).
  assert (mu ld = false) as Hmu
    by (unfold Lock in Hl; by destruct (mu ld)).
  destruct (lookupSto ld1 prefix) as [bs|] eqn:Hq.
  { intros [= <- <- <-]. split; [exact Hmu|]. split; [reflexivity|]. split; [exact Hconf1 | by left]. }
  destruct (makeSto_fields ld1) as [Hmm Hmc].
  destruct (Prefixes (conf (makeSto ld1)) !! prefix) as [stoConf|] eqn:Hc.
  2:{ intros [= <- <- <-]. split; [exact Hmu|]. split; [reflexivity|].
      split; [simpl; congruence | by left]. }
  assert (is_Some (Prefixes (conf ld) !! prefix)) as Hconf
    by (rewrite <- Hconf1, <- Hmc, Hc; by eexists).
  destruct (construct _ _ _) as [[s'|err] ld2 b2| | |] eqn:Hk; try discriminate.
  - apply construct_held in Hk as (_ & -> & ->); [|congruence].
    destruct (assignSto _ _ _) as [ld3|] eqn:Ha; [|discriminate].
    apply assignSto_fields in Ha as [_ Hc3].
    intros [= <- <- <-]. split; [exact Hmu|]. split; [reflexivity|].
    split; [simpl; congruence|]. right. by rewrite <- Hsto.
  - apply construct_held in Hk as (_ & -> & ->); [|congruence].
    intros [= <- <- <-]. split; [exact Hmu|]. split; [reflexivity|].
    split; [simpl; congruence|]. right. by rewrite <- Hsto.
Qed.

(** X10.  [SetStorage] then [GetStorage].  On a free loader [SetStorage]
    returns, and the next [GetStorage] for the prefix returns the backend
    just stored, out of the cache, without running a constructor: whether or
    not the prefix is configured, and whatever was cached for it before.
    The other prefixes and the configuration are left as they were. *)
Theorem SetStorage_then_GetStorage fuel ld prefix s :
  mu ld = false ->
  exists ld',
    SetStorage ld prefix s = Returns tt ld' []
    /\ GetStorage CreateStorage (S fuel) ld' prefix = Returns (inl s) ld' []
    /\ (forall q, q <> prefix -> lookupSto ld' q = lookupSto ld q)
    /\ conf ld' = conf ld.
Proof.
  intros Hmu. unfold SetStorage. rewrite Lock_unlocked by done.
  destruct (assignSto (makeSto {| mu := true; sto := sto ld; conf := conf ld |})
              prefix s) as [ld1|] eqn:Ha.
  2:{ unfold assignSto, makeSto in Ha. simpl in Ha. by destruct (sto ld). }
  exists (Unlock ld1). split; [reflexivity|].
  pose proof (lookupSto_assignSto _ _ _ _ Ha) as Hl.
  destruct (assignSto_fields _ _ _ _ Ha) as [_ Hc].
  split; [|split].
  - simpl. unfold Lock, Unlock. simpl.
    change (lookupSto {| mu := true; sto := sto ld1; conf := conf ld1 |} prefix)
      with (lookupSto ld1 prefix).
    by rewrite Hl.
  - intros q Hq.
    change (lookupSto (Unlock ld1) q) with (lookupSto ld1 q).
    rewrite (lookupSto_assignSto_other _ _ _ _ _ Ha Hq).
    by rewrite lookupSto_makeSto.
  - simpl. rewrite Hc. by destruct (makeSto_fields
                                      {| mu := true; sto := sto ld; conf := conf ld |}).
Qed.

(** X11.  No configuration.  [GetStorage] for a prefix that is neither
    cached nor configured returns the error for the missing configuration,
    runs no constructor, releases the mutex and leaves every lookup of the
    cache and the configuration as they were. *)
Theorem GetStorage_not_configured fuel ld prefix :
  mu ld = false ->
  lookupSto ld prefix = None ->
  Prefixes (conf ld) !! prefix = None ->
  exists ld',
    GetStorage CreateStorage (S fuel) ld prefix
    = Returns (inr (errNoStorageConfig prefix)) ld' []
    /\ mu ld' = false
    /\ (forall q, lookupSto ld' q = lookupSto ld q)
    /\ conf ld' = conf ld.
Proof.
  intros Hmu Hnone Hconf. simpl. rewrite Lock_unlocked by done.
  change (lookupSto {| mu := true; sto := sto ld; conf := conf ld |} prefix)
    with (lookupSto ld prefix).
  rewrite Hnone.
  destruct (makeSto_fields {| mu := true; sto := sto ld; conf := conf ld |})
    as [_ Hc].
  rewrite Hc. simpl. rewrite Hconf.
  eexists. split; [reflexivity|]. split; [reflexivity|]. split.
  - intros q.
    change (lookupSto (Unlock (makeSto {| mu := true; sto := sto ld; conf := conf ld |})) q)
      with (lookupSto (makeSto {| mu := true; sto := sto ld; conf := conf ld |}) q).
    by rewrite lookupSto_makeSto.
  - simpl. exact Hc.
Qed.

Lemma GetStorage_direct_constructor fuel ld prefix stoConf s :
  mu ld = false ->
  lookupSto ld prefix = None ->
  Prefixes (conf ld) !! prefix = Some stoConf ->
  CreateStorage (StorageHandler stoConf) (StorageHandlerArgs stoConf)
  = Return (inl s) ->
  exists ld',
    GetStorage CreateStorage (S fuel) ld prefix = Returns (inl s) ld' [prefix]
    /\ mu ld' = false
    /\ lookupSto ld' prefix = Some s
    /\ (forall q, q <> prefix -> lookupSto ld' q = lookupSto ld q)
    /\ conf ld' = conf ld.
Proof.
  intros Hmu Hnone Hconf Hctor. simpl. rewrite Lock_unlocked by done.
  change (lookupSto {| mu := true; sto := sto ld; conf := conf ld |} prefix)
    with (lookupSto ld prefix).
  rewrite Hnone.
  destruct (makeSto_fields {| mu := true; sto := sto ld; conf := conf ld |})
    as [_ Hc].
  rewrite Hc. simpl conf. rewrite Hconf, Hctor. simpl construct.
  destruct (assignSto_makeSto {| mu := true; sto := sto ld; conf := conf ld |}
              prefix s) as (ld1 & Ha & _ & Hc1).
  rewrite Ha. exists (Unlock ld1).
  split; [reflexivity|]. split; [reflexivity|]. split; [|split].
  - change (lookupSto (Unlock ld1) prefix) with (lookupSto ld1 prefix).
    by eapply lookupSto_assignSto.
  - intros q Hq. change (lookupSto (Unlock ld1) q) with (lookupSto ld1 q).
    rewrite (lookupSto_assignSto_other _ _ _ _ _ Ha Hq).
    by rewrite lookupSto_makeSto.
  - exact Hc1.
Qed.

(** X12.  A constructor that succeeds.  When the constructor of a
    configured prefix that is not cached returns a backend without calling
    back, [GetStorage] returns that backend, has run that one constructor,
    caches the backend under the prefix and under no other, and releases the
    mutex. *)
Theorem GetStorage_constructs fuel ld prefix stoConf s :
  mu ld = false ->
  lookupSto ld prefix = None ->
  Prefixes (conf ld) !! prefix = Some stoConf ->
  CreateStorage (StorageHandler stoConf) (StorageHandlerArgs stoConf)
  = Return (inl s) ->
  exists ld',
    GetStorage CreateStorage (S fuel) ld prefix = Returns (inl s) ld' [prefix]
    /\ mu ld' = false
    /\ lookupSto ld' prefix = Some s
    /\ (forall q, q <> prefix -> lookupSto ld' q = lookupSto ld q)
    /\ conf ld' = conf ld.
Proof. apply GetStorage_direct_constructor. Qed.

(** X13.  A constructor that fails.  When the constructor returns an error,
    [GetStorage] returns that error having released the mutex and cached
    nothing, so the next [GetStorage] for the prefix runs the constructor
    again. *)
Theorem GetStorage_constructor_error fuel ld prefix stoConf err :
  mu ld = false ->
  lookupSto ld prefix = None ->
  Prefixes (conf ld) !! prefix = Some stoConf ->
  CreateStorage (StorageHandler stoConf) (StorageHandlerArgs stoConf)
  = Return (inr err) ->
  exists ld',
    GetStorage CreateStorage (S fuel) ld prefix = Returns (inr err) ld' [prefix]
    /\ mu ld' = false
    /\ (forall q, lookupSto ld' q = lookupSto ld q)
    /\ GetStorage CreateStorage (S fuel) ld' prefix
       = Returns (inr err) ld' [prefix].
Proof.
  intros Hmu Hnone Hconf Hctor.
  assert (forall ld0, mu ld0 = false -> lookupSto ld0 prefix = None ->
            conf ld0 = conf ld ->
            GetStorage CreateStorage (S fuel) ld0 prefix
            = Returns (inr err)
                (Unlock (makeSto {| mu := true; sto := sto ld0; conf := conf ld0 |}))
                [prefix]) as Hcall.
  { intros ld0 Hmu0 Hnone0 Hconf0. simpl. rewrite Lock_unlocked by done.
    change (lookupSto {| mu := true; sto := sto ld0; conf := conf ld0 |} prefix)
      with (lookupSto ld0 prefix).
    rewrite Hnone0.
    destruct (makeSto_fields {| mu := true; sto := sto ld0; conf := conf ld0 |})
      as [_ Hc].
    rewrite Hc. simpl conf. by rewrite Hconf0, Hconf, Hctor. }
  set (ld' := Unlock (makeSto {| mu := true; sto := sto ld; conf := conf ld |})).
  assert (forall q, lookupSto ld' q = lookupSto ld q) as Hlook.
  { intros q. unfold ld'.
    change (lookupSto (Unlock (makeSto {| mu := true; sto := sto ld; conf := conf ld |})) q)
      with (lookupSto (makeSto {| mu := true; sto := sto ld; conf := conf ld |}) q).
    by rewrite lookupSto_makeSto. }
  exists ld'. split; [by apply Hcall|]. split; [reflexivity|]. split; [exact Hlook|].
  rewrite Hcall.
  - f_equal. unfold ld', makeSto, Unlock. simpl. by destruct (sto ld).
  - reflexivity.
  - by rewrite Hlook.
  - unfold ld', makeSto. simpl. by destruct (sto ld).
Qed.

Lemma SetStorage_returns_inv ld prefix s u ld' built :
  SetStorage ld prefix s = Returns u ld' built ->
  mu ld = false /\ mu ld' = false /\ conf ld' = conf ld.
Proof.
  unfold SetStorage. destruct (Lock ld) as [ld1|] eqn:Hl; [|discriminate].
  destruct (cached_Lock _ _ prefix Hl) as (_ & _ & Hconf1).
  assert (mu ld = false) as Hmu by (unfold Lock in Hl; by destruct (mu ld)).
  destruct (assignSto (makeSto ld1) prefix s) as [ld2|] eqn:Ha; [|discriminate].
  apply assignSto_fields in Ha as [_ Hc].
  destruct (makeSto_fields ld1) as [_ Hc1].
  intros [= <- <- <-]. split; [exact Hmu|]. split; [reflexivity|].
  simpl. congruence.
Qed.

(** X14.  What the loader keeps.  Whatever calls of [GetStorage] and
    [SetStorage] a client makes one after the other, when they have all
    returned the mutex is as it was, the configuration is unchanged, and
    every prefix that was cached is still cached.  A constructor was run only
    for a prefix that was asked for, is configured, and was not cached at the
    start. *)
Theorem serve_invariants fuel (reqs : list (Request Storage)) :
  forall ld rs ld' built,
  serve CreateStorage fuel reqs ld = Returns rs ld' built ->
  mu ld' = mu ld
  /\ conf ld' = conf ld
  /\ (forall q, cached q ld -> cached q ld')
  /\ (forall p, In p built ->
        ~ cached p ld /\ is_Some (Prefixes (conf ld) !! p)
        /\ In (ReqGetStorage p) reqs).
Proof.
  induction reqs as [|[q|q s] reqs IH]; intros ld rs ld' built; simpl.
  - intros [= <- <- <-]. split; [done|]. split; [done|]. split; [done|].
    intros p [].
  - destruct (GetStorage _ _ _ _) as [r1 ld1 b1| | |] eqn:Hg; try discriminate.
    destruct (serve _ _ _ _) as [rs2 ld2 b2| | |] eqn:Hs; try discriminate.
    intros [= <- <- <-].
    destruct (GetStorage_returns_inv _ _ _ _ _ _ Hg) as (Hmu & Hmu1 & Hc1 & Hb1).
    destruct (IH _ _ _ _ Hs) as (Hmu2 & Hc2 & Hmono2 & Hb2).
    assert (forall p, cached p ld -> cached p ld1) as Hmono1.
    { intros p Hp. by destruct (GetStorage_cached _ _ _ _ _ _ _ _ Hp Hg). }
    split; [congruence|]. split; [congruence|]. split; [auto|].
    intros p Hp. apply in_app_or in Hp as [Hp|Hp].
    + destruct Hb1 as [->|(-> & Hnone & Hconf)]; [destruct Hp|].
      destruct Hp as [<-|[]]. split; [|split; [done | by left]].
      intros [x Hx]. congruence.
    + destruct (Hb2 p Hp) as (Hnc & Hconf & Hin).
      split; [auto|]. split; [by rewrite <- Hc1 | by right].
  - destruct (SetStorage _ _ _) as [u ld1 b1| | |] eqn:Hg; try discriminate.
    destruct (serve _ _ _ _) as [rs2 ld2 b2| | |] eqn:Hs; try discriminate.
    intros [= <- <- <-].
    destruct (SetStorage_returns_inv _ _ _ _ _ _ Hg) as (Hmu & Hmu1 & Hc1).
    destruct (IH _ _ _ _ Hs) as (Hmu2 & Hc2 & Hmono2 & Hb2).
    assert (forall p, cached p ld -> cached p ld1 /\ b1 = []) as Hmono1.
    { intros p Hp. by apply (SetStorage_cached _ _ _ _ _ _ _ Hp Hg). }
    assert (b1 = []) as ->.
    { unfold SetStorage in Hg. destruct (Lock ld); [|discriminate].
      destruct (assignSto _ _ _); [|discriminate]. by injection Hg. }
    split; [congruence|]. split; [congruence|].
    split; [intros p Hp; apply Hmono2; by apply Hmono1|].
    intros p Hp. simpl in Hp. destruct (Hb2 p Hp) as (Hnc & Hconf & Hin).
    split; [|split; [by rewrite <- Hc1 | by right]].
    intros Hp'. apply Hnc. by apply Hmono1.
Qed.

(** X15.  The loader is not reentrant.  [GetStorage] runs the constructor
    with the mutex held: a constructor that calls back into [GetStorage] or
    [SetStorage] of the same loader blocks there, and the outer call never
    returns. *)
Theorem constructor_callbacks_block fuel ld prefix stoConf :
  mu ld = false ->
  lookupSto ld prefix = None ->
  Prefixes (conf ld) !! prefix = Some stoConf ->
  (exists q k, CreateStorage (StorageHandler stoConf) (StorageHandlerArgs stoConf)
               = CallGetStorage q k)
  \/ (exists q s k, CreateStorage (StorageHandler stoConf) (StorageHandlerArgs stoConf)
                    = CallSetStorage q s k) ->
  GetStorage CreateStorage (S (S fuel)) ld prefix = Blocks.
Proof.
  intros Hmu Hnone Hconf Hctor.
  cbn [GetStorage]. rewrite Lock_unlocked by done.
  change (lookupSto {| mu := true; sto := sto ld; conf := conf ld |} prefix)
    with (lookupSto ld prefix).
  rewrite Hnone.
  destruct (makeSto_fields {| mu := true; sto := sto ld; conf := conf ld |})
    as [Hm Hc].
  rewrite Hc. simpl conf. rewrite Hconf.
  destruct Hctor as [(q & k & ->)|(q & s & k & ->)]; cbn [construct].
  - by rewrite Lock_held.
  - by rewrite SetStorage_held.
Qed.

(** X16.  Sub-stores of a constructor run with the mutex free, as [main]
    runs the one of [/bs/].  A call back for a cached prefix hands the cached
    backend to the constructor and changes nothing.  A call back for a
    configured prefix whose own constructor returns a backend directly runs
    that constructor, caches the backend, and hands it to the constructor,
    which goes on with the loader free again. *)
Theorem construct_resolves_substores fuel ld q
    (k : Storage + error -> Construction Storage) :
  mu ld = false ->
  (forall s, lookupSto ld q = Some s ->
     construct (GetStorage CreateStorage (S fuel)) (CallGetStorage q k) ld
     = construct (GetStorage CreateStorage (S fuel)) (k (inl s)) ld)
  /\ (forall stoConf s,
        lookupSto ld q = None ->
        Prefixes (conf ld) !! q = Some stoConf ->
        CreateStorage (StorageHandler stoConf) (StorageHandlerArgs stoConf)
        = Return (inl s) ->
        exists ld',
          mu ld' = false /\ lookupSto ld' q = Some s
          /\ (forall q', q' <> q -> lookupSto ld' q' = lookupSto ld q')
          /\ construct (GetStorage CreateStorage (S fuel)) (CallGetStorage q k) ld
             = match construct (GetStorage CreateStorage (S fuel)) (k (inl s)) ld' with
               | Returns r ld'' built => Returns r ld'' (q :: built)
               | o => o
               end).
Proof.
  intros Hmu. split.
  - intros s Hs. cbn [construct]. simpl GetStorage.
    rewrite Lock_unlocked by done.
    change (lookupSto {| mu := true; sto := sto ld; conf := conf ld |} q)
      with (lookupSto ld q).
    rewrite Hs.
    assert (Unlock {| mu := true; sto := sto ld; conf := conf ld |} = ld) as ->.
    { apply Unlock_Lock. by apply Lock_unlocked. }
    by destruct (construct _ (k (inl s)) ld).
  - intros stoConf s Hnone Hconf Hctor.
    destruct (GetStorage_direct_constructor fuel ld q stoConf s Hmu Hnone Hconf Hctor)
      as (ld' & Hget & Hmu' & Hl & Hother & _).
    exists ld'. split; [done|]. split; [done|]. split; [done|].
    cbn [construct]. rewrite Hget.
    by destruct (construct _ (k (inl s)) ld').
Qed.

End LoaderMore.

Lemma SetStorage_then_GetStorage_witness :
  exists ld',
    SetStorage (NewLoader (Example.configOf Example.document)) "/cache/" "a backend"
    = Returns tt ld' []
    /\ GetStorage Example.CreateStorage 1 ld' "/cache/"
       = Returns (inl "a backend") ld' [].
Proof.
  destruct (SetStorage_then_GetStorage Example.CreateStorage 0
              (NewLoader (Example.configOf Example.document)) "/cache/" "a backend")
    as (ld' & Hset & Hget & _); [reflexivity|].
  by exists ld'.
Defined.

Lemma GetStorage_not_configured_witness :
  exists ld',
    GetStorage Example.CreateStorage 1
      (NewLoader (Example.configOf Example.document)) "/nowhere/"
    = Returns (inr (errNoStorageConfig "/nowhere/")) ld' [].
Proof.
  destruct (GetStorage_not_configured Example.CreateStorage 0
              (NewLoader (Example.configOf Example.document)) "/nowhere/")
    as (ld' & Hget & _); try reflexivity.
  by exists ld'.
Defined.

Lemma GetStorage_constructs_witness :
  exists ld',
    GetStorage Example.CreateStorage 1
      (NewLoader (Example.configOf Example.document)) "/bs-packed/"
    = Returns (inl "filesystem /Users/jeremy/pk/blobs/packed") ld' ["/bs-packed/"]
    /\ lookupSto ld' "/bs-packed/" = Some "filesystem /Users/jeremy/pk/blobs/packed".
Proof.
  destruct (GetStorage_constructs Example.CreateStorage 0
              (NewLoader (Example.configOf Example.document)) "/bs-packed/"
              {| StorageHandler := "filesystem";
                 StorageHandlerArgs := fresh [("path", JString "/Users/jeremy/pk/blobs/packed")] |}
              "filesystem /Users/jeremy/pk/blobs/packed")
    as (ld' & Hget & _ & Hl & _); try reflexivity.
  by exists ld'.
Defined.

Lemma GetStorage_constructor_error_witness :
  exists ld',
    GetStorage Example.CreateStorage 1
      (NewLoader {| Prefixes := {[ "/x/" := {| StorageHandler := "s3";
                                               StorageHandlerArgs := empty |} ]} |})
      "/x/"
    = Returns (inr (errorString "unknown storage type")) ld' ["/x/"]
    /\ GetStorage Example.CreateStorage 1 ld' "/x/"
       = Returns (inr (errorString "unknown storage type")) ld' ["/x/"].
Proof.
  destruct (GetStorage_constructor_error Example.CreateStorage 0
              (NewLoader {| Prefixes := {[ "/x/" := {| StorageHandler := "s3";
                                                       StorageHandlerArgs := empty |} ]} |})
              "/x/" {| StorageHandler := "s3"; StorageHandlerArgs := empty |}
              (errorString "unknown storage type"))
    as (ld' & Hget & _ & _ & Hagain); try reflexivity.
  by exists ld'.
Defined.

Lemma serve_invariants_witness :
  exists rs ld' built,
    serve Example.CreateStorage 1
      [ReqGetStorage "/bs-loose/"; ReqSetStorage "/tmp/" "a backend";
       ReqGetStorage "/bs-loose/"]
      (NewLoader (Example.configOf Example.document)) = Returns rs ld' built
    /\ mu ld' = mu (NewLoader (Storage := string) (Example.configOf Example.document)).
Proof.
  eexists. eexists. eexists. split.
  - vm_compute. reflexivity.
  - refine (proj1 (serve_invariants Example.CreateStorage 1
                     [ReqGetStorage "/bs-loose/"; ReqSetStorage "/tmp/" "a backend";
                      ReqGetStorage "/bs-loose/"]
                     (NewLoader (Example.configOf Example.document)) _ _ _ _)).
    vm_compute. reflexivity.
Defined.

Lemma constructor_callbacks_block_witness :
  GetStorage Example.CreateStorage 2
    (NewLoader (Example.configOf Example.document)) "/bs/" = Blocks.
Proof.
  apply (constructor_callbacks_block Example.CreateStorage 0
           (NewLoader (Example.configOf Example.document)) "/bs/"
           {| StorageHandler := "blobpacked";
              StorageHandlerArgs :=
                fresh [("largeBlobs", JString "/bs-packed/");
                       ("metaIndex",
                        JObject [("file", JString "/Users/jeremy/pk/blobs/packed/packindex.leveldb");
                                 ("type", JString "leveldb")]);
                       ("smallBlobs", JString "/bs-loose/")] |});
    try reflexivity.
  left. by eexists _, _.
Defined.

Lemma construct_resolves_substores_witness :
  exists ld',
    lookupSto ld' "/bs-loose/" = Some "filesystem /Users/jeremy/pk/blobs"
    /\ construct (GetStorage Example.CreateStorage 1)
         (CallGetStorage "/bs-loose/" Return)
         (NewLoader (Example.configOf Example.document))
       = Returns (inl "filesystem /Users/jeremy/pk/blobs") ld' ["/bs-loose/"].
Proof.
  destruct (construct_resolves_substores Example.CreateStorage 0
              (NewLoader (Example.configOf Example.document)) "/bs-loose/" Return)
    as [_ Hnew]; [reflexivity|].
  destruct (Hnew {| StorageHandler := "filesystem";
                    StorageHandlerArgs := fresh [("path", JString "/Users/jeremy/pk/blobs")] |}
                 "filesystem /Users/jeremy/pk/blobs")
    as (ld' & _ & Hl & _ & Hc); try reflexivity.
  exists ld'. split; [exact Hl | exact Hc].
Defined.

(** ** More on the pipeline and on [main] *)

Lemma nInvalid_pos_iff blobs :
  0 < nInvalid blobs <-> Exists (fun b => isValid b = false) blobs.
Proof.
  unfold nInvalid. induction blobs as [|b blobs IH]; simpl.
  - split; [lia | by inversion 1].
  - destruct (isValid b) eqn:Hb; simpl.
    + rewrite IH. split; [intros H; by right|].
      intros H. inversion H as [? ? Hx|]; [congruence | done].
    + split; [intros _; by left | lia].
Qed.

Lemma report_stdout rest : forall seen o,
  In o (report seen rest) -> ~ isStderr o.
Proof.
  induction rest as [|b rest IH]; intros seen o; simpl; [contradiction|].
  intros Hin. apply in_app_or in Hin as [Hin|Hin]; [|by eapply IH].
  unfold lines_for in Hin. apply in_app_or in Hin as [Hin|[<-|[]]].
  - destruct (isValid b); [destruct Hin|]. destruct Hin as [<-|[]]. intros [].
  - intros [].
Qed.

(** The exit status of the pipeline, for a stream within the range of
    [int]. *)
Lemma verifyBlobs_status s :
  Z.of_nat (length (sent s)) <= GoInt.MaxInt ->
  verifyBlobs s
  = (report [] (sent s)
       ++ [Stdout (summary (nValid (sent s)) (nInvalid (sent s)))]
       ++ match streamErr s with
          | Some err => [Stderr ("pk-verify: error while streaming blobs: "
                                 +:+ err +:+ nl)]
          | None => []
          end,
     match streamErr s with
     | Some _ => 1
     | None => if Z.eqb (nInvalid (sent s)) 0 then 0 else 2
     end).
Proof.
  intros Hlen. unfold verifyBlobs. rewrite consume_all by done.
  pose proof (nInvalid_nonneg (sent s)) as Hi.
  destruct (streamErr s) as [err|].
  - by rewrite <- app_assoc.
  - rewrite app_nil_r.
    destruct (Z.eqb_spec (nInvalid (sent s)) 0) as [->|Hne]; [reflexivity|].
    by destruct (Z.ltb_spec 0 (nInvalid (sent s))); [|lia].
Qed.

(** X17.  What the exit status says.  For a stream within the range of
    [int], the pipeline exits with 0 exactly when the producer returned no
    error and every blob validated, with 1 exactly when the producer returned
    an error, and with 2 exactly when it returned none and some blob failed
    validation.  Something is written to the standard error exactly when the
    producer returned an error. *)
Theorem exit_status_meaning (s : Stream) :
  Z.of_nat (length (sent s)) <= GoInt.MaxInt ->
  (snd (verifyBlobs s) = 0
   <-> streamErr s = None /\ Forall (fun b => isValid b = true) (sent s))
  /\ (snd (verifyBlobs s) = 1 <-> streamErr s <> None)
  /\ (snd (verifyBlobs s) = 2
      <-> streamErr s = None /\ Exists (fun b => isValid b = false) (sent s))
  /\ ((exists o, In o (fst (verifyBlobs s)) /\ isStderr o) <-> streamErr s <> None).
Proof.
  intros Hlen. rewrite verifyBlobs_status by done. simpl.
  rewrite <- nInvalid_zero_iff, <- nInvalid_pos_iff.
  pose proof (nInvalid_nonneg (sent s)) as Hi.
  assert (forall l, (exists o, In o (report [] (sent s)
                      ++ Stdout (summary (nValid (sent s)) (nInvalid (sent s))) :: l)
                      /\ isStderr o)
                    -> exists o, In o l /\ isStderr o) as Hout.
  { intros l (o & Hin & Ho). apply in_app_or in Hin as [Hin|[<-|Hin]].
    - by apply report_stdout in Hin.
    - destruct Ho.
    - by exists o. }
  destruct (streamErr s) as [err|].
  - split; [|split; [|split]].
    + split; [discriminate | intros [H _]; discriminate H].
    + split; [discriminate | reflexivity].
    + split; [discriminate | intros [H _]; discriminate H].
    + split; [discriminate|]. intros _.
      exists (Stderr ("pk-verify: error while streaming blobs: " +:+ err +:+ nl)).
      split; [|exact I]. apply in_or_app. right. right. by left.
  - assert (~ exists o, In o (report [] (sent s)
                       ++ Stdout (summary (nValid (sent s)) (nInvalid (sent s))) :: [])
                       /\ isStderr o) as Hnone.
    { intros H. apply Hout in H as (o & [] & _). }
    destruct (Z.eqb_spec (nInvalid (sent s)) 0) as [H0|H0].
    + split; [|split; [|split]].
      * split; [done | reflexivity].
      * split; [discriminate | intros H; by destruct H].
      * split; [discriminate | intros [_ H]; lia].
      * split; [intros H; by destruct Hnone | intros H; by destruct H].
    + split; [|split; [|split]].
      * split; [discriminate | intros [_ H]; lia].
      * split; [discriminate | intros H; by destruct H].
      * split; [intros _; split; [done | lia] | reflexivity].
      * split; [intros H; by destruct Hnone | intros H; by destruct H].
Qed.

Lemma exit_status_meaning_witness :
  snd (verifyBlobs {| sent := [good "sha224-a"; good "sha224-b"]; streamErr := None |}) = 0.
Proof.
  apply (exit_status_meaning
           {| sent := [good "sha224-a"; good "sha224-b"]; streamErr := None |}).
  - vm_compute. discriminate.
  - split; [reflexivity | by repeat constructor].
Defined.

Section LoaderNeverPanics.

Context {Storage : Type}.
Variable CreateStorage : string -> Obj -> Construction Storage.

Implicit Types (ld : Loader Storage) (prefix : string) (s : Storage).







End LoaderNeverPanics.







(** X21.  Wrong number of arguments.  With one argument too few or too many
    after the program name, [main] prints the usage with that name on the
    standard error and exits with status 1, without looking at any file. *)
Theorem main_usage {Storage : Type} (env : Env Storage) (fuel : nat)
    (arg0 : string) (rest : list string) :
  length rest <> 1%nat ->
  main env fuel (arg0 :: rest)
  = Exits [Stderr ("Usage: " +:+ arg0 +:+ " <path to perkeep server config file>" +:+ nl);
           Stderr nl;
           Stderr ("Example: " +:+ arg0 +:+ " ~/.config/perkeep/server-config.json" +:+ nl)]
          1.
Proof.
  intros Hlen. destruct rest as [|path [|x rest]]; [reflexivity| |reflexivity].
  by destruct Hlen.
Qed.

Lemma main_usage_witness :
  main (Example.env Example.document) 1 ("pk-verify" :: [])
  = Exits [Stderr ("Usage: pk-verify <path to perkeep server config file>" +:+ nl);
           Stderr nl;
           Stderr ("Example: pk-verify ~/.config/perkeep/server-config.json" +:+ nl)]
          1.
Proof.
  apply (main_usage (Example.env Example.document) 1 "pk-verify" []).
  discriminate.
Defined.




